(** * graph-view: the merged graph, the page cursor and the node styling

    A shallow embedding of [src/components/graph-view.ts], the Lit element
    that draws a force-directed graph of addresses and grows it page by
    page as nodes are clicked.

    What is modelled: the two fields of the component that carry its logic
    ([graphData] and [currentFileIndex]), the console, the fetches that
    have been issued and not yet settled, and the methods that read or
    write them ([fetchGraphData], [firstUpdated], [updateGraph],
    [onNodeClick], [getNodeColor], [getNodeLabel]).

    What is not modelled: the d3 scene and force simulation.  [initSvg],
    [renderGraph], [ticked] and the three drag handlers only talk to d3
    and to the position fields of a node ([x], [y], [vx], [vy], [fx],
    [fy]); none of them writes [graphData] or [currentFileIndex].  d3 is
    a third-party library.  Of its calls one can fail on data the
    component hands it: the link force refuses a link whose [source] or
    [target] is not an object, and [renderGraph] passes it the merged
    links.  That call is modelled, exception included; the others are
    taken to return normally.  The position fields are floating-point
    numbers owned by the simulation and
    are left out of [GraphNode], so a node value here is exactly the part
    of the node object that is fixed once the page has been parsed, and a
    pointer to a node object can be represented by the node value.

    A page is a JSON document of type [GraphData], as the source declares
    it; documents of another shape are not considered. *)

From Stdlib Require Import String Ascii List ZArith Lia Bool DecimalString.
Import ListNotations.
Local Open Scope string_scope.
Local Open Scope Z_scope.
Local Open Scope list_scope.

(** ** JavaScript strings

    A string is a sequence of code units; one [ascii] stands for one code
    unit.  [===] on two strings is [String.eqb]. *)

Module Js.

(** [s.slice(start, end)]: a negative index counts from the end, both
    indices are clamped to [0 .. s.length], and an omitted [end] is
    [s.length]. *)
Definition clamp_index (len rel : Z) : Z :=
  if rel <? 0 then Z.max (len + rel) 0 else Z.min rel len.

Definition slice (s : string) (start : Z) (end_ : option Z) : string :=
  let len := Z.of_nat (String.length s) in
  let from := clamp_index len start in
  let to := match end_ with
            | None => len
            | Some e => clamp_index len e
            end in
  let span := Z.max (to - from) 0 in
  substring (Z.to_nat from) (Z.to_nat span) s.

(** Truthiness of an optional string: [undefined] and the empty string
    are falsy, every other string is truthy. *)
Definition truthy (v : option string) : bool :=
  match v with
  | None => false
  | Some "" => false
  | Some _ => true
  end.

(** [v === s] for an optional string [v] and a string [s]. *)
Definition strict_eq (v : option string) (s : string) : bool :=
  match v with
  | Some t => String.eqb t s
  | None => false
  end.

(** [String(n)] for an integral number below 1e21: its decimal digits. *)
Definition number_toString (n : Z) : string :=
  NilZero.string_of_int (Z.to_int n).

(** [Array.prototype.some] and [Array.prototype.find]. *)
Definition some {A} (p : A -> bool) (xs : list A) : bool := existsb p xs.
Definition find {A} (p : A -> bool) (xs : list A) : option A := List.find p xs.

End Js.

(** ** [Map] with string keys

    A JavaScript [Map] remembers insertion order: [set] on a key that is
    already there replaces the value and keeps the entry's place, [set] on
    a new key appends an entry.  [Array.from(m.values())] lists the values
    in that order. *)

Module JsMap.
Section Ops.
Context {V : Type}.

Definition t := list (string * V).

Definition has (k : string) (m : t) : bool :=
  existsb (fun e => String.eqb (fst e) k) m.

Fixpoint set (k : string) (v : V) (m : t) : t :=
  match m with
  | [] => [(k, v)]
  | (k', v') :: m' =>
      if String.eqb k' k then (k', v) :: m' else (k', v') :: set k v m'
  end.

(** [new Map(entries)]: one [set] per entry, left to right. *)
Definition of_entries (es : list (string * V)) : t :=
  fold_left (fun m e => set (fst e) (snd e) m) es [].

Definition values (m : t) : list V := map snd m.
Definition keys (m : t) : list string := map fst m.
End Ops.
Arguments t : clear implicits.
End JsMap.

(** ** Data model *)

Record GraphNode := {
  address : string;
  address_name : option string;
  type : option string
}.

(** [source] and [target] come from d3's [SimulationLinkDatum]; the code
    stores in them what [Array.prototype.find] returned, [None] standing
    for [undefined]. *)
Record GraphLink := {
  id : string;
  from : string;
  to : string;
  source : option GraphNode;
  target : option GraphNode
}.

Record GraphData := {
  nodes : list GraphNode;
  links : list GraphLink
}.

(** ** Node styling *)

(** A [switch] compares its subject to each [case] with [===], in order;
    a missing [type] equals none of them. *)
Definition getNodeColor (node : GraphNode) : string :=
  let t := type node in
  if Js.strict_eq t "cex" then "orange"
  else if Js.strict_eq t "stakingpool" then "purple"
  else if Js.strict_eq t "token" then "green"
  else if Js.strict_eq t "dao" then "blue"
  else if Js.strict_eq t "gambling" then "red"
  else "#666".

(** [if (node.address_name) return node.address_name;]: inside the truthy
    branch the field is a string, the [None] arm is never taken. *)
Definition getNodeLabel (node : GraphNode) : string :=
  if Js.truthy (address_name node) then
    match address_name node with
    | Some name => name
    | None => ""
    end
  else
    Js.slice (address node) 0 (Some 6) ++ "..." ++ Js.slice (address node) (-4) None.

(** ** The component and its environment *)

(** The private fields of [GraphView] that the modelled methods use.  The
    cursor is a JavaScript number that only ever holds small integers, on
    which [++] is exact. *)
Record GraphView := {
  graphData : GraphData;
  currentFileIndex : Z
}.

(** What the [try] block of [fetchGraphData] can catch: [fetch] rejecting
    (network failure), [resp.json()] rejecting (the body is not JSON), and
    the link force throwing [node not found: undefined] from inside
    [renderGraph]. *)
Inductive Error :=
| FetchRejected
| JsonRejected
| NodeNotFound.

(** Console output, one constructor per call site. *)
Inductive LogEntry :=
| ErrLoad (url : string)                          (* line 90, console.error *)
| LogNotFound (addr : string) (fileIndex : Z)     (* line 100, console.log *)
| ErrRequest (e : Error)                          (* line 103, console.error *)
| LogClicked (addr : string) (fileIndex : Z).     (* line 301, console.log *)

(** A fetch that has been issued: its URL and the two parameters of the
    suspended [fetchGraphData] call that awaits it. *)
Record Request := {
  req_url : string;
  req_fileIndex : Z;
  req_address : string
}.

(** The response as the code reads it: the [ok] flag and what
    [resp.json()] resolves to, [None] when it rejects.  The body is typed
    [GraphData] as line 93 declares it. *)
Record Response := {
  ok : bool;
  json : option GraphData
}.

Inductive FetchResult :=
| Rejected
| Resolved (resp : Response).

Record World := {
  view : GraphView;
  console : list LogEntry;
  inflight : list Request
}.

(** ** A state monad with exceptions *)

Inductive Completion (A : Type) :=
| Normal (a : A)
| Throw (e : Error).
Arguments Normal {A} a.
Arguments Throw {A} e.

Definition M (A : Type) := World -> Completion A * World.

Definition ret {A} (a : A) : M A := fun w => (Normal a, w).

Definition bind {A B} (m : M A) (f : A -> M B) : M B :=
  fun w => match m w with
           | (Normal a, w') => f a w'
           | (Throw e, w') => (Throw e, w')
           end.

Definition throw {A} (e : Error) : M A := fun w => (Throw e, w).

Definition try_catch {A} (body : M A) (handler : Error -> M A) : M A :=
  fun w => match body w with
           | (Normal a, w') => (Normal a, w')
           | (Throw e, w') => handler e w'
           end.

Declare Scope js_scope.
Delimit Scope js_scope with js.
Notation "x <- m ;; k" := (bind m (fun x => k))
  (at level 61, m at next level, right associativity) : js_scope.
Notation "m ;; k" := (bind m (fun _ => k))
  (at level 61, right associativity) : js_scope.
Local Open Scope js_scope.

Definition exec {A} (m : M A) (w : World) : World := snd (m w).
Definition completion {A} (m : M A) (w : World) : Completion A := fst (m w).

Definition get_graphData : M GraphData :=
  fun w => (Normal (graphData (view w)), w).

Definition set_graphData (g : GraphData) : M unit :=
  fun w => (Normal tt,
            {| view := {| graphData := g;
                          currentFileIndex := currentFileIndex (view w) |};
               console := console w;
               inflight := inflight w |}).

Definition get_currentFileIndex : M Z :=
  fun w => (Normal (currentFileIndex (view w)), w).

Definition set_currentFileIndex (n : Z) : M unit :=
  fun w => (Normal tt,
            {| view := {| graphData := graphData (view w);
                          currentFileIndex := n |};
               console := console w;
               inflight := inflight w |}).

Definition console_write (e : LogEntry) : M unit :=
  fun w => (Normal tt,
            {| view := view w;
               console := console w ++ [e];
               inflight := inflight w |}).

(** [fetch(url)]: the request joins the fetches in flight. *)
Definition fetch (rq : Request) : M unit :=
  fun w => (Normal tt,
            {| view := view w;
               console := console w;
               inflight := inflight w ++ [rq] |}).

(** ** The merge *)

(** The loops of lines 142-146 and 151-155: a value of the delta enters
    the map only under a key the map does not have yet. *)
Definition add_absent {V} (key : V -> string) (vs : list V) (m : JsMap.t V)
  : JsMap.t V :=
  fold_left
    (fun m v => if negb (JsMap.has (key v) m) then JsMap.set (key v) v m else m)
    vs m.

(** Lines 159-160: both pointers of a link are looked up again in the
    merged node list.  The code assigns them in place; the arrays that
    shared the link objects (the page, the previous [graphData.links]) are
    dropped once line 163 has replaced [graphData], so the list of updated
    link values is all that remains to observe. *)
Definition resolve (mergedNodes : list GraphNode) (link : GraphLink) : GraphLink :=
  {| id := id link;
     from := from link;
     to := to link;
     source := Js.find (fun n => String.eqb (address n) (from link)) mergedNodes;
     target := Js.find (fun n => String.eqb (address n) (to link)) mergedNodes |}.

(** A link the link force cannot take: one of its pointers is
    undefined. *)
Definition dangling (link : GraphLink) : bool :=
  match source link, target link with
  | Some _, Some _ => false
  | _, _ => true
  end.

(** [linkForce.links(links)] of d3-force (line 178).  The force goes
    through the links and looks up, by id, every [source] and [target]
    that is not an object; the lookup of [undefined] finds no node and
    throws [node not found: undefined].  The links whose pointers are
    nodes pass untouched. *)
Definition forceLink_links (ls : list GraphLink) : M unit :=
  fun w => (if existsb dangling ls then Throw NodeNotFound else Normal tt, w).

(** [renderGraph] hands the two collections to d3: first the links to
    the link force, then the scene reconciliation and the restart of the
    simulation, which are outside this model.  It writes neither
    [graphData] nor [currentFileIndex].  The guard of line 174 returns
    early only while [initSvg] has not run; in a session [firstUpdated]
    runs it before the first fetch is issued, so the guard is left out. *)
Definition renderGraph : M unit :=
  g <- get_graphData ;;
  forceLink_links (links g).

Definition updateGraph (newData : GraphData) : M unit :=
  g <- get_graphData ;;
  let existingNodesMap :=
    JsMap.of_entries (map (fun n => (address n, n)) (nodes g)) in
  let existingNodesMap := add_absent address (nodes newData) existingNodesMap in
  let mergedNodes := JsMap.values existingNodesMap in
  let existingLinksMap :=
    JsMap.of_entries (map (fun l => (id l, l)) (links g)) in
  let existingLinksMap := add_absent id (links newData) existingLinksMap in
  let mergedLinks := JsMap.values existingLinksMap in
  let mergedLinks := map (resolve mergedNodes) mergedLinks in
  set_graphData {| nodes := mergedNodes; links := mergedLinks |} ;;
  renderGraph.

(** ** Loading pages

    [fetchGraphData] is an [async] method.  Up to its first [await] it
    runs inside the caller: it builds the URL and issues the fetch.  The
    rest runs when the fetch has settled.  Between [await fetch(url)] and
    [await resp.json()] the method touches no field of the component, so
    the two suspensions are taken as one: [fetchGraphData_resume] receives
    the whole outcome, and reads and writes the component as it is at
    that moment. *)

Definition page_url (fileIndex : Z) (addr : string) : string :=
  "/data/" ++ Js.number_toString fileIndex ++ ".json?address=" ++ addr.

Definition catch_log (error : Error) : M unit :=
  console_write (ErrRequest error).

Definition fetchGraphData (fileIndex : Z) (addr : string) : M unit :=
  try_catch
    (let url := page_url fileIndex addr in
     fetch {| req_url := url; req_fileIndex := fileIndex; req_address := addr |})
    catch_log.

Definition await_fetch (result : FetchResult) : M Response :=
  match result with
  | Rejected => throw FetchRejected
  | Resolved resp => ret resp
  end.

Definition await_json (resp : Response) : M GraphData :=
  match json resp with
  | None => throw JsonRejected
  | Some data => ret data
  end.

Definition fetchGraphData_resume (rq : Request) (result : FetchResult) : M unit :=
  try_catch
    (resp <- await_fetch result ;;
     if negb (ok resp) then
       console_write (ErrLoad (req_url rq))
     else
       data <- await_json resp ;;
       let linkContainsAddressTo :=
         Js.some (fun link => String.eqb (from link) (req_address rq)) (links data) in
       if linkContainsAddressTo then
         updateGraph data ;;
         n <- get_currentFileIndex ;;
         set_currentFileIndex (n + 1)
       else
         console_write (LogNotFound (req_address rq) (req_fileIndex rq)))
    catch_log.

Definition seed_address : string := "0x2be59e62d811a1a8a25a937c4812313cf8bbe428".

(** [initSvg] builds the d3 selections and the simulation only. *)
Definition initSvg : M unit := ret tt.

Definition firstUpdated : M unit :=
  initSvg ;;
  n <- get_currentFileIndex ;;
  fetchGraphData n seed_address.

Definition onNodeClick (d : GraphNode) : M unit :=
  n <- get_currentFileIndex ;;
  console_write (LogClicked (address d) n) ;;
  n <- get_currentFileIndex ;;
  if n <=? 3 then
    n <- get_currentFileIndex ;;
    fetchGraphData n (address d)
  else
    ret tt.

(** ** A session

    The component starts with an empty graph and the cursor at 1.  What
    happens to it afterwards is a sequence of events: Lit calls
    [firstUpdated], the user clicks a node, a fetch in flight settles, or
    the scene moves (a simulation tick or a drag gesture, which write
    position fields and d3 state only and so leave the modelled world as
    it is).  A click may name any node; the fetches settle in any
    order. *)

Definition initial_world : World :=
  {| view := {| graphData := {| nodes := []; links := [] |};
                currentFileIndex := 1 |};
     console := [];
     inflight := [] |}.

Inductive Event :=
| EvFirstUpdated
| EvClick (d : GraphNode)
| EvSettle (i : nat) (result : FetchResult)
| EvScene.

Definition take_request (i : nat) (w : World) : World :=
  {| view := view w;
     console := console w;
     inflight := firstn i (inflight w) ++ skipn (S i) (inflight w) |}.

Inductive step : World -> Event -> World -> Prop :=
| step_firstUpdated w :
    step w EvFirstUpdated (exec firstUpdated w)
| step_click w d :
    step w (EvClick d) (exec (onNodeClick d) w)
| step_settle w i rq result :
    nth_error (inflight w) i = Some rq ->
    step w (EvSettle i result)
         (exec (fetchGraphData_resume rq result) (take_request i w))
| step_scene w :
    step w EvScene w.

Inductive steps : World -> list Event -> World -> Prop :=
| steps_nil w : steps w [] w
| steps_cons w e w' es w'' :
    step w e w' -> steps w' es w'' -> steps w (e :: es) w''.

Definition reachable (w : World) : Prop :=
  exists es, steps initial_world es w.

(** The page of a settled fetch was accepted: the fetch resolved with a
    success response whose body parsed and has a link leaving the queried
    address. *)
Definition page_accepted (rq : Request) (result : FetchResult) : bool :=
  match result with
  | Resolved {| ok := true; json := Some data |} =>
      existsb (fun link => String.eqb (from link) (req_address rq)) (links data)
  | _ => false
  end.

(** ** Predicates used in the statements *)

(** Every entry of a map sits under the key of its value. *)
Definition keyed {V} (key : V -> string) (m : JsMap.t V) : Prop :=
  forall e, In e m -> fst e = key (snd e).

(** The entry list [vs.map(v => [key(v), v])] given to [new Map]. *)
Definition entries {V} (key : V -> string) (vs : list V) : list (string * V) :=
  map (fun v => (key v, v)) vs.

(** The graph the component holds once [updateGraph newData] has run. *)
Definition graph_after (newData : GraphData) (w : World) : GraphData :=
  graphData (view (exec (updateGraph newData) w)).

(** No two nodes share an address and no two links share an id. *)
Definition graph_wf (g : GraphData) : Prop :=
  NoDup (map address (nodes g)) /\ NoDup (map id (links g)).

(** The part of a link that comes from the page. *)
Definition link_key (l : GraphLink) : string * string * string :=
  (id l, from l, to l).

(** A settle event that delivers an accepted page. *)
Definition event_accepted (w : World) (e : Event) : bool :=
  match e with
  | EvSettle i result =>
      match nth_error (inflight w) i with
      | Some rq => page_accepted rq result
      | None => false
      end
  | _ => false
  end.

(** The fetch that [fetchGraphData fileIndex addr] issues. *)
Definition request_for (fileIndex : Z) (addr : string) : Request :=
  {| req_url := page_url fileIndex addr;
     req_fileIndex := fileIndex;
     req_address := addr |}.

(** "The first [n] characters" and "the last [n] characters" of a string,
    as the label policy words them. *)
Definition first_chars (n : nat) (s : string) : string :=
  string_of_list_ascii (firstn n (list_ascii_of_string s)).

Definition last_chars (n : nat) (s : string) : string :=
  let cs := list_ascii_of_string s in
  string_of_list_ascii (skipn (List.length cs - n) cs).

(** The truncated form of an address. *)
Definition short_address (a : string) : string :=
  (first_chars 6 a ++ "..." ++ last_chars 4 a)%string.

(** ** Sample data

    The scenario of the specification: the seed address with one link to a
    second node, then a page whose only link leaves another address, and a
    page with a link whose target is on no page. *)

Definition node_A : GraphNode :=
  {| address := seed_address; address_name := None; type := None |}.

Definition node_B : GraphNode :=
  {| address := "0xb"; address_name := Some "Exchange"; type := Some "cex" |}.

(** A later page describing [node_B]'s address with other attributes. *)
Definition node_B_again : GraphNode :=
  {| address := "0xb"; address_name := Some "Renamed"; type := Some "dao" |}.

Definition link_l1 : GraphLink :=
  {| id := "l1"; from := seed_address; to := "0xb"; source := None; target := None |}.

Definition link_l2 : GraphLink :=
  {| id := "l2"; from := "0xb"; to := "0xc"; source := None; target := None |}.

Definition link_x : GraphLink :=
  {| id := "l9"; from := "0xf"; to := seed_address; source := None; target := None |}.

Definition page_1 : GraphData :=
  {| nodes := [node_A; node_B]; links := [link_l1] |}.

Definition page_dangling : GraphData :=
  {| nodes := [node_A; node_B_again]; links := [link_l1; link_l2] |}.

Definition page_other : GraphData :=
  {| nodes := [node_A]; links := [link_x] |}.

Definition ok_page (data : GraphData) : FetchResult :=
  Resolved {| ok := true; json := Some data |}.

(** The component after [firstUpdated]. *)
Definition world_0 : World := exec firstUpdated initial_world.

(** ... and after the seed fetch has delivered [page_1]. *)
Definition world_1 : World :=
  exec (fetchGraphData_resume (request_for 1 seed_address) (ok_page page_1))
       (take_request 0 world_0).

(** A component whose cursor has passed the last page. *)
Definition world_past_end : World :=
  {| view := {| graphData := page_1; currentFileIndex := 4 |};
     console := [];
     inflight := [] |}.

(** The link force takes every link of [g]. *)
Definition renders (g : GraphData) : bool :=
  negb (existsb dangling (links g)).

(** A settle event that delivers an accepted page whose merge the link
    force takes: the only event after which line 98 runs. *)
Definition event_advances (w : World) (e : Event) : bool :=
  match e with
  | EvSettle i (Resolved {| ok := true; json := Some data |}) =>
      event_accepted w e && renders (graph_after data w)
  | _ => false
  end.

(** A third node, a page for the second address whose links all find
    their nodes, and the component after a click on [node_B]. *)
Definition node_C : GraphNode :=
  {| address := "0xc"; address_name := None; type := Some "token" |}.

Definition page_2 : GraphData :=
  {| nodes := [node_B; node_C]; links := [link_l2] |}.

Definition world_2 : World := exec (onNodeClick node_B) world_1.

(** A delta that only repeats what [page_1] brought, with other
    attributes for the second node. *)
Definition page_known : GraphData :=
  {| nodes := [node_B_again; node_A]; links := [link_l1] |}.

(** A fetch that did not deliver a page: it rejected, the response was
    not a success, or the body did not parse. *)
Definition fetch_failed (result : FetchResult) : bool :=
  match result with
  | Rejected => true
  | Resolved resp =>
      negb (ok resp) || match json resp with None => true | Some _ => false end
  end.

(** The console line a failed fetch leaves. *)
Definition failure_line (rq : Request) (result : FetchResult) : LogEntry :=
  match result with
  | Rejected => ErrRequest FetchRejected
  | Resolved resp =>
      if ok resp then ErrRequest JsonRejected else ErrLoad (req_url rq)
  end.

(** ** Further vocabulary *)

(** The values of [vs] that a run of the [forEach] loop lets in, given
    the keys [seen] so far: every value whose key has not been seen,
    which then counts as seen. *)
Fixpoint fresh_first {V} (key : V -> string) (seen : list string) (vs : list V)
  : list V :=
  match vs with
  | [] => []
  | v :: vs' =>
      if existsb (fun k => String.eqb k (key v)) seen
      then fresh_first key seen vs'
      else v :: fresh_first key (seen ++ [key v]) vs'
  end.

(** Both pointers of [l] are what lines 159-160 compute against [ns]. *)
Definition resolved_against (ns : list GraphNode) (l : GraphLink) : Prop :=
  source l = Js.find (fun n => String.eqb (address n) (from l)) ns
  /\ target l = Js.find (fun n => String.eqb (address n) (to l)) ns.

(** What holds of an issued fetch: it asks for a page from the first up
    to the one the cursor [c] stands at, at the URL of its page index and
    address. *)
Definition request_ok (c : Z) (rq : Request) : Prop :=
  1 <= req_fileIndex rq <= c
  /\ req_url rq = page_url (req_fileIndex rq) (req_address rq).

(** ** Dragging a node

    The three drag handlers read and write the position fields of the
    dragged node and call the simulation.  The fields are numbers produced
    by d3; the handlers only copy them, so the number type is left open.
    The calls on the simulation are recorded in the order they are made;
    [alphaTarget] is called with one of two literals. *)

Module Drag.

(** [fx?: number | null]. *)
Inductive Pin (num : Type) :=
| PinUndefined
| PinNull
| PinAt (v : num).
Arguments PinUndefined {num}.
Arguments PinNull {num}.
Arguments PinAt {num} v.

(** [d.fx = d.x]: an undefined coordinate gives an undefined pin. *)
Definition pin_of {num} (v : option num) : Pin num :=
  match v with
  | Some c => PinAt c
  | None => PinUndefined
  end.

Record Node (num : Type) := {
  x : option num;
  y : option num;
  fx : Pin num;
  fy : Pin num
}.
Arguments x {num} _.
Arguments y {num} _.
Arguments fx {num} _.
Arguments fy {num} _.

(** The fields of a [D3DragEvent] the handlers read: [active], the
    number of other drag gestures under way, and the pointer position. *)
Record DragEvent (num : Type) := {
  active : Z;
  event_x : num;
  event_y : num
}.
Arguments active {num} _.
Arguments event_x {num} _.
Arguments event_y {num} _.

Inductive AlphaLevel :=
| Alpha_0_3     (* 0.3 *)
| Alpha_0.      (* 0 *)

Inductive SimCall :=
| AlphaTarget (level : AlphaLevel)
| Restart.

(** [!event.active && this.simulation]; [simulation] tells whether the
    field is set. *)
Definition idle {num} (simulation : bool) (event : DragEvent num) : bool :=
  (active event =? 0) && simulation.

Definition dragstarted {num} (simulation : bool) (event : DragEvent num)
  (d : Node num) : list SimCall * Node num :=
  (if idle simulation event then [AlphaTarget Alpha_0_3; Restart] else [],
   {| x := x d; y := y d; fx := pin_of (x d); fy := pin_of (y d) |}).

Definition dragged {num} (event : DragEvent num) (d : Node num)
  : list SimCall * Node num :=
  ([],
   {| x := x d; y := y d; fx := PinAt (event_x event); fy := PinAt (event_y event) |}).

Definition dragended {num} (simulation : bool) (event : DragEvent num)
  (d : Node num) : list SimCall * Node num :=
  (if idle simulation event then [AlphaTarget Alpha_0] else [],
   {| x := x d; y := y d; fx := PinNull; fy := PinNull |}).

(** The handlers d3 runs on one node over a gesture, in order. *)
Inductive Handler (num : Type) :=
| Started (event : DragEvent num)
| Dragged (event : DragEvent num)
| Ended (event : DragEvent num).
Arguments Started {num} event.
Arguments Dragged {num} event.
Arguments Ended {num} event.

Definition handle {num} (simulation : bool) (h : Handler num) (d : Node num)
  : list SimCall * Node num :=
  match h with
  | Started event => dragstarted simulation event d
  | Dragged event => dragged event d
  | Ended event => dragended simulation event d
  end.

Fixpoint run {num} (simulation : bool) (hs : list (Handler num)) (d : Node num)
  : list SimCall * Node num :=
  match hs with
  | [] => ([], d)
  | h :: hs' =>
      let (calls, d') := handle simulation h d in
      let (calls', d'') := run simulation hs' d' in
      (calls ++ calls', d'')
  end.

(** One gesture: a start, any number of moves, an end. *)
Definition gesture {num} (start : DragEvent num) (moves : list (DragEvent num))
  (stop : DragEvent num) : list (Handler num) :=
  Started start :: map Dragged moves ++ [Ended stop].

End Drag.

(** * Properties *)

(** ** Insertion-ordered maps *)

Section MapFacts.
Context {V : Type}.
Implicit Types (m : JsMap.t V) (k : string) (v : V).
Implicit Types (key : V -> string) (vs : list V).

Lemma has_true_iff k m : JsMap.has k m = true <-> In k (JsMap.keys m).
Proof.
  unfold JsMap.has, JsMap.keys. rewrite existsb_exists, in_map_iff.
  split.
  - intros [e [H1 H2]]. exists e. apply String.eqb_eq in H2. auto.
  - intros [e [H1 H2]]. exists e. split; [assumption | now apply String.eqb_eq].
Qed.

Lemma has_false_iff k m : JsMap.has k m = false <-> ~ In k (JsMap.keys m).
Proof.
  rewrite <- has_true_iff. destruct (JsMap.has k m); split; congruence.
Qed.

Lemma set_absent k v m :
  JsMap.has k m = false -> JsMap.set k v m = m ++ [(k, v)].
Proof.
  induction m as [|[k' v'] m IH]; simpl; intros H; [reflexivity|].
  apply orb_false_iff in H as [Hk Hm]. rewrite Hk. now rewrite IH.
Qed.

Lemma set_keys k v m :
  JsMap.keys (JsMap.set k v m)
  = if JsMap.has k m then JsMap.keys m else JsMap.keys m ++ [k].
Proof.
  induction m as [|[k' v'] m IH]; simpl; [reflexivity|].
  destruct (String.eqb k' k) eqn:E; simpl; [reflexivity|].
  rewrite IH. now destruct (JsMap.has k m).
Qed.

Lemma set_keys_NoDup k v m :
  NoDup (JsMap.keys m) -> NoDup (JsMap.keys (JsMap.set k v m)).
Proof.
  intros H. rewrite set_keys. destruct (JsMap.has k m) eqn:E; [assumption|].
  apply has_false_iff in E.
  apply NoDup_app; [assumption | repeat constructor; intros [] | ].
  intros x Hx [<-|[]]. contradiction.
Qed.

Lemma keyed_keys key m :
  keyed key m -> JsMap.keys m = map key (JsMap.values m).
Proof.
  unfold JsMap.keys, JsMap.values. intros H. rewrite map_map.
  apply map_ext_in. exact H.
Qed.

Lemma set_keyed key v m :
  keyed key m -> keyed key (JsMap.set (key v) v m).
Proof.
  induction m as [|[k' v'] m IH]; simpl; intros H e He.
  - destruct He as [<-|[]]. reflexivity.
  - destruct (String.eqb k' (key v)) eqn:E.
    + destruct He as [<-|He]; [now apply String.eqb_eq in E | apply H; now right].
    + destruct He as [<-|He]; [apply (H (k', v')); now left|].
      apply IH; [|assumption]. intros e' He'. apply H. now right.
Qed.

Lemma of_entries_from key vs m :
  keyed key m -> NoDup (JsMap.keys m) ->
  let m' := fold_left (fun m e => JsMap.set (fst e) (snd e) m) (entries key vs) m in
  keyed key m' /\ NoDup (JsMap.keys m').
Proof.
  revert m. induction vs as [|v vs IH]; simpl; intros m Hk Hn; [auto|].
  apply IH; [now apply set_keyed | now apply set_keys_NoDup].
Qed.

Lemma of_entries_keyed_NoDup key vs :
  keyed key (JsMap.of_entries (entries key vs))
  /\ NoDup (JsMap.keys (JsMap.of_entries (entries key vs))).
Proof.
  apply (of_entries_from key vs []); [intros e [] | simpl; constructor].
Qed.

(** A list without repeated keys goes through [new Map(...)] unchanged. *)
Lemma fold_set_distinct (es : list (string * V)) m :
  NoDup (JsMap.keys m ++ JsMap.keys es) ->
  fold_left (fun m e => JsMap.set (fst e) (snd e) m) es m = m ++ es.
Proof.
  revert m. induction es as [|[k v] es IH]; simpl; intros m H.
  - now rewrite app_nil_r.
  - assert (Hk : JsMap.has k m = false).
    { apply has_false_iff. intros Hin.
      apply NoDup_remove_2 in H. apply H. apply in_or_app. now left. }
    rewrite (set_absent _ _ _ Hk), IH.
    + now rewrite <- app_assoc.
    + unfold JsMap.keys in *. rewrite map_app. simpl.
      rewrite <- app_assoc. exact H.
Qed.

Lemma of_entries_distinct key vs :
  NoDup (map key vs) ->
  JsMap.values (JsMap.of_entries (entries key vs)) = vs.
Proof.
  intros H. unfold JsMap.of_entries. rewrite fold_set_distinct.
  - unfold JsMap.values, entries. simpl. rewrite map_map. simpl. apply map_id.
  - simpl. unfold JsMap.keys, entries. rewrite map_map. exact H.
Qed.

(** The [forEach] loop only appends, and only values of the delta. *)
Lemma add_absent_spec key vs m :
  keyed key m -> NoDup (JsMap.keys m) ->
  exists extra,
    add_absent key vs m = m ++ extra
    /\ keyed key (m ++ extra)
    /\ NoDup (JsMap.keys (m ++ extra))
    /\ (forall e, In e extra -> In (snd e) vs)
    /\ (forall v, In v vs -> In (key v) (JsMap.keys (m ++ extra))).
Proof.
  revert m. induction vs as [|v vs IH]; intros m Hk Hn.
  - exists []. rewrite app_nil_r. simpl. repeat split; auto; intros ? [].
  - unfold add_absent. simpl. fold (add_absent key vs).
    destruct (JsMap.has (key v) m) eqn:E; simpl.
    + destruct (IH m Hk Hn) as (extra & H1 & H2 & H3 & H4 & H5).
      fold (add_absent key vs m). exists extra. rewrite H1.
      repeat split; auto.
      intros v' [<-|Hv']; [|now apply H5].
      apply has_true_iff in E. unfold JsMap.keys in *.
      rewrite map_app. apply in_or_app. now left.
    + pose proof (set_keyed key v m Hk) as Hk'.
      pose proof (set_keys_NoDup (key v) v m Hn) as Hn'.
      rewrite (set_absent _ _ _ E) in *.
      destruct (IH _ Hk' Hn') as (extra & H1 & H2 & H3 & H4 & H5).
      fold (add_absent key vs (m ++ [(key v, v)])).
      exists ((key v, v) :: extra).
      rewrite <- app_assoc in H1, H2, H3, H5. simpl in *.
      rewrite H1. repeat split; auto.
      * intros e [<-|He]; [now left | right; now apply H4].
      * intros v' [<-|Hv']; [|now apply H5].
        unfold JsMap.keys. rewrite map_app. apply in_or_app. right. now left.
Qed.

Lemma add_absent_known key vs m :
  (forall v, In v vs -> In (key v) (JsMap.keys m)) ->
  add_absent key vs m = m.
Proof.
  induction vs as [|v vs IH]; intros H; [reflexivity|].
  unfold add_absent. simpl.
  assert (E : JsMap.has (key v) m = true) by (apply has_true_iff, H; now left).
  rewrite E. simpl. apply IH. intros v' Hv'. apply H. now right.
Qed.
End MapFacts.

(** ** The merge *)

Lemma resolve_id ns l : id (resolve ns l) = id l.
Proof. reflexivity. Qed.

Lemma resolve_key ns l : link_key (resolve ns l) = link_key l.
Proof. reflexivity. Qed.

Lemma map_id_resolve ns ls : map id (map (resolve ns) ls) = map id ls.
Proof. rewrite map_map. apply map_ext. intros l. apply resolve_id. Qed.

Lemma map_key_resolve ns ls :
  map link_key (map (resolve ns) ls) = map link_key ls.
Proof. rewrite map_map. apply map_ext. intros l. apply resolve_key. Qed.

(** [updateGraph] writes nothing but [graphData], and writes it whether
    or not the link force then takes the merged links. *)
Lemma updateGraph_run d w :
  updateGraph d w =
  (if renders (graph_after d w) then Normal tt else Throw NodeNotFound,
   {| view := {| graphData := graph_after d w;
                 currentFileIndex := currentFileIndex (view w) |};
      console := console w;
      inflight := inflight w |}).
Proof.
  unfold renders, graph_after, exec, updateGraph, renderGraph, forceLink_links,
    bind, get_graphData, set_graphData. simpl.
  destruct (existsb dangling _); reflexivity.
Qed.

Lemma graph_after_nodes d w :
  nodes (graph_after d w)
  = JsMap.values
      (add_absent address (nodes d)
         (JsMap.of_entries (entries address (nodes (graphData (view w)))))).
Proof. reflexivity. Qed.

Lemma graph_after_links d w :
  links (graph_after d w)
  = map (resolve (nodes (graph_after d w)))
      (JsMap.values
         (add_absent id (links d)
            (JsMap.of_entries (entries id (links (graphData (view w))))))).
Proof. reflexivity. Qed.

Lemma merged_values_NoDup {V} (key : V -> string) vs ws :
  NoDup (map key
           (JsMap.values (add_absent key ws (JsMap.of_entries (entries key vs))))).
Proof.
  destruct (of_entries_keyed_NoDup key vs) as [Hk Hn].
  destruct (add_absent_spec key ws _ Hk Hn) as (extra & -> & Hk' & Hn' & _).
  rewrite <- (keyed_keys key _ Hk'). exact Hn'.
Qed.

Lemma merged_values_extend {V} (key : V -> string) vs ws :
  NoDup (map key vs) ->
  exists extra,
    JsMap.values (add_absent key ws (JsMap.of_entries (entries key vs)))
    = vs ++ extra
    /\ (forall v, In v extra -> In v ws).
Proof.
  intros Hd.
  destruct (of_entries_keyed_NoDup key vs) as [Hk Hn].
  destruct (add_absent_spec key ws _ Hk Hn) as (extra & -> & _ & _ & Hin & _).
  exists (JsMap.values extra). unfold JsMap.values at 1. rewrite map_app.
  fold (JsMap.values (JsMap.of_entries (entries key vs))).
  rewrite (of_entries_distinct key vs Hd). split; [reflexivity|].
  intros v Hv. apply in_map_iff in Hv as (e & <- & He). now apply Hin.
Qed.

Lemma merged_values_known {V} (key : V -> string) vs ws :
  NoDup (map key vs) ->
  (forall v, In v ws -> In (key v) (map key vs)) ->
  JsMap.values (add_absent key ws (JsMap.of_entries (entries key vs))) = vs.
Proof.
  intros Hd Hknown. rewrite add_absent_known.
  - now apply of_entries_distinct.
  - intros v Hv. destruct (of_entries_keyed_NoDup key vs) as [Hk _].
    rewrite (keyed_keys key _ Hk), (of_entries_distinct key vs Hd). now apply Hknown.
Qed.

Lemma graph_after_wf d w : graph_wf (graph_after d w).
Proof.
  split.
  - rewrite graph_after_nodes. apply merged_values_NoDup.
  - rewrite graph_after_links, map_id_resolve. apply merged_values_NoDup.
Qed.

(** [find] by address in a list without repeated addresses. *)
Lemma find_address_unique ns n :
  NoDup (map address ns) -> In n ns ->
  Js.find (fun n' => String.eqb (address n') (address n)) ns = Some n.
Proof.
  unfold Js.find. induction ns as [|n0 ns IH]; simpl; intros Hd Hin; [contradiction|].
  inversion Hd as [|? ? Hnot Hd']; subst.
  destruct (String.eqb (address n0) (address n)) eqn:E.
  - destruct Hin as [->|Hin]; [reflexivity|].
    apply String.eqb_eq in E. exfalso. apply Hnot. rewrite E. now apply in_map.
  - destruct Hin as [->|Hin]; [now rewrite String.eqb_refl in E | now apply IH].
Qed.

Lemma find_address_none ns a :
  ~ In a (map address ns) ->
  Js.find (fun n' => String.eqb (address n') a) ns = None.
Proof.
  unfold Js.find. intros H.
  destruct (List.find _ ns) as [n|] eqn:E; [|reflexivity].
  apply find_some in E as [Hin Heq]. apply String.eqb_eq in Heq.
  exfalso. apply H. rewrite <- Heq. now apply in_map.
Qed.

(** ** What a settled fetch does *)

Section Resume.
Variables (rq : Request) (w : World).

Lemma resume_rejected :
  fetchGraphData_resume rq Rejected w
  = (Normal tt, exec (console_write (ErrRequest FetchRejected)) w).
Proof. reflexivity. Qed.

Lemma resume_not_ok body :
  fetchGraphData_resume rq (Resolved {| ok := false; json := body |}) w
  = (Normal tt, exec (console_write (ErrLoad (req_url rq))) w).
Proof. reflexivity. Qed.

Lemma resume_bad_json :
  fetchGraphData_resume rq (Resolved {| ok := true; json := None |}) w
  = (Normal tt, exec (console_write (ErrRequest JsonRejected)) w).
Proof. reflexivity. Qed.

Lemma resume_page data :
  fetchGraphData_resume rq (Resolved {| ok := true; json := Some data |}) w
  = if existsb (fun link => String.eqb (from link) (req_address rq)) (links data)
    then (Normal tt,
          if renders (graph_after data w)
          then {| view := {| graphData := graph_after data w;
                             currentFileIndex := currentFileIndex (view w) + 1 |};
                  console := console w;
                  inflight := inflight w |}
          else {| view := {| graphData := graph_after data w;
                             currentFileIndex := currentFileIndex (view w) |};
                  console := console w ++ [ErrRequest NodeNotFound];
                  inflight := inflight w |})
    else (Normal tt, exec (console_write (LogNotFound (req_address rq) (req_fileIndex rq))) w).
Proof.
  unfold fetchGraphData_resume, try_catch, bind, await_fetch, await_json, Js.some.
  cbn [ok json negb ret].
  destruct (existsb _ (links data)); [|reflexivity].
  rewrite updateGraph_run. destruct (renders (graph_after data w)); reflexivity.
Qed.

Lemma resume_view result :
  view (exec (fetchGraphData_resume rq result) w)
  = match result with
    | Resolved {| ok := true; json := Some data |} =>
        if page_accepted rq result
        then {| graphData := graph_after data w;
                currentFileIndex :=
                  currentFileIndex (view w)
                  + (if renders (graph_after data w) then 1 else 0) |}
        else view w
    | _ => view w
    end.
Proof.
  unfold exec. destruct result as [|[[|] [data|]]].
  - now rewrite resume_rejected.
  - rewrite resume_page. cbn [page_accepted].
    destruct (existsb _ (links data)); [|reflexivity].
    destruct (renders (graph_after data w)); cbn [snd view];
      [reflexivity | now rewrite Z.add_0_r].
  - now rewrite resume_bad_json.
  - now rewrite resume_not_ok.
  - now rewrite resume_not_ok.
Qed.

Lemma resume_completes result :
  completion (fetchGraphData_resume rq result) w = Normal tt.
Proof.
  unfold completion. destruct result as [|[[|] [data|]]].
  - now rewrite resume_rejected.
  - rewrite resume_page. now destruct (existsb _ (links data)).
  - now rewrite resume_bad_json.
  - now rewrite resume_not_ok.
  - now rewrite resume_not_ok.
Qed.
End Resume.

Lemma existsb_from_iff a ls :
  existsb (fun link => String.eqb (from link) a) ls = true
  <-> exists link, In link ls /\ from link = a.
Proof.
  rewrite existsb_exists. split; intros (l & H1 & H2); exists l.
  - now apply String.eqb_eq in H2.
  - split; [assumption | now apply String.eqb_eq].
Qed.

Lemma fetchGraphData_run fileIndex addr w :
  fetchGraphData fileIndex addr w
  = (Normal tt,
     {| view := view w;
        console := console w;
        inflight := inflight w ++ [request_for fileIndex addr] |}).
Proof. reflexivity. Qed.

Lemma onNodeClick_run d w :
  onNodeClick d w
  = let c := currentFileIndex (view w) in
    (Normal tt,
     {| view := view w;
        console := console w ++ [LogClicked (address d) c];
        inflight := if c <=? 3
                    then inflight w ++ [request_for c (address d)]
                    else inflight w |}).
Proof.
  unfold onNodeClick, bind. simpl.
  destruct (currentFileIndex (view w) <=? 3); reflexivity.
Qed.

Lemma step_view w e w' :
  step w e w' ->
  view w' = view w
  \/ exists data,
       event_accepted w e = true
       /\ view w' = {| graphData := graph_after data (take_request
                                       match e with EvSettle i _ => i | _ => 0%nat end w);
                       currentFileIndex :=
                         currentFileIndex (view w)
                         + (if renders (graph_after data w) then 1 else 0) |}.
Proof.
  intros H. destruct H as [w|w d|w i rq result Hrq|w].
  - now left.
  - left. unfold exec. now rewrite onNodeClick_run.
  - rewrite resume_view. simpl. rewrite Hrq.
    destruct result as [|[[|] [data|]]]; auto.
    destruct (page_accepted rq _) eqn:E; [right; now exists data | now left].
  - now left.
Qed.

Lemma event_advances_accepted w e :
  event_advances w e = true -> event_accepted w e = true.
Proof.
  destruct e as [| |i [|[[|] [data|]]]|]; try discriminate.
  unfold event_advances. intros H. now apply andb_prop in H.
Qed.

Lemma step_cursor w e w' :
  step w e w' ->
  currentFileIndex (view w')
  = currentFileIndex (view w) + (if event_advances w e then 1 else 0).
Proof.
  intros H. destruct H as [w|w d|w i rq result Hrq|w].
  - simpl. lia.
  - unfold exec. rewrite onNodeClick_run. simpl. lia.
  - rewrite resume_view. unfold event_advances, event_accepted. rewrite Hrq.
    destruct result as [|[[|] [data|]]]; cbn [view take_request]; try lia.
    change (graph_after data (take_request i w)) with (graph_after data w).
    destruct (page_accepted rq _); cbn [andb currentFileIndex]; [reflexivity | lia].
  - simpl. lia.
Qed.

Lemma step_wf w e w' :
  step w e w' -> graph_wf (graphData (view w)) -> graph_wf (graphData (view w')).
Proof.
  intros H Hwf. destruct (step_view _ _ _ H) as [->|(data & _ & ->)];
    [assumption | apply graph_after_wf].
Qed.

Lemma steps_wf w es w' :
  steps w es w' -> graph_wf (graphData (view w)) -> graph_wf (graphData (view w')).
Proof.
  induction 1 as [|w e w' es w'' Hstep _ IH]; intros Hwf; [assumption|].
  apply IH. exact (step_wf _ _ _ Hstep Hwf).
Qed.

(** Along a session the node list only grows at its end. *)
Lemma steps_nodes_grow w es w' :
  steps w es w' -> graph_wf (graphData (view w)) ->
  exists extra,
    nodes (graphData (view w')) = nodes (graphData (view w)) ++ extra.
Proof.
  induction 1 as [w|w e w' es w'' Hstep Hsteps IH]; intros Hwf.
  - exists []. now rewrite app_nil_r.
  - destruct (IH (step_wf _ _ _ Hstep Hwf)) as (x2 & E2).
    destruct (step_view _ _ _ Hstep) as [Ev|(data & _ & Ev)];
      rewrite Ev in E2.
    + now exists x2.
    + cbn [graphData] in E2. rewrite graph_after_nodes in E2.
      unfold take_request in E2. cbn [view] in E2.
      destruct (merged_values_extend address _ (nodes data) (proj1 Hwf))
        as (x1 & E1 & _).
      rewrite E1, <- app_assoc in E2. now exists (x1 ++ x2).
Qed.

Lemma reachable_wf w : reachable w -> graph_wf (graphData (view w)).
Proof.
  intros [es H]. apply (steps_wf _ _ _ H). split; constructor.
Qed.

(** ** Slices *)

Lemma length_list_ascii s :
  List.length (list_ascii_of_string s) = String.length s.
Proof. induction s as [|c s IH]; simpl; congruence. Qed.

Lemma substring_firstn_skipn n m s :
  substring n m s
  = string_of_list_ascii (firstn m (skipn n (list_ascii_of_string s))).
Proof.
  revert n m. induction s as [|c s IH]; intros n m.
  - destruct n, m; reflexivity.
  - destruct n as [|n]; simpl.
    + destruct m as [|m]; simpl; [reflexivity|].
      rewrite (IH 0%nat m). reflexivity.
    + apply IH.
Qed.

Lemma firstn_min {A} n (l : list A) :
  firstn (Nat.min n (List.length l)) l = firstn n l.
Proof.
  destruct (Nat.le_ge_cases n (List.length l)) as [H|H].
  - now rewrite Nat.min_l.
  - rewrite Nat.min_r by assumption.
    rewrite firstn_all. symmetry. now apply firstn_all2.
Qed.

Lemma slice_first n s :
  Js.slice s 0 (Some (Z.of_nat n)) = first_chars n s.
Proof.
  unfold Js.slice, Js.clamp_index, first_chars.
  change (0 <? 0) with false. cbv iota.
  destruct (Z.of_nat n <? 0) eqn:E; [apply Z.ltb_lt in E; lia|].
  rewrite substring_firstn_skipn.
  replace (Z.to_nat (Z.min 0 (Z.of_nat (String.length s)))) with 0%nat by lia.
  simpl skipn. f_equal.
  replace (Z.to_nat (Z.max (Z.min (Z.of_nat n) (Z.of_nat (String.length s))
                            - Z.min 0 (Z.of_nat (String.length s))) 0))
    with (Nat.min n (List.length (list_ascii_of_string s)))
    by (rewrite length_list_ascii; lia).
  apply firstn_min.
Qed.

Lemma slice_last n s :
  (0 < n)%nat ->
  Js.slice s (- Z.of_nat n) None = last_chars n s.
Proof.
  intros Hn. unfold Js.slice, Js.clamp_index, last_chars.
  destruct (- Z.of_nat n <? 0) eqn:E; [|apply Z.ltb_ge in E; lia].
  rewrite substring_firstn_skipn. f_equal.
  rewrite length_list_ascii.
  replace (Z.to_nat (Z.max (Z.of_nat (String.length s) + - Z.of_nat n) 0))
    with (String.length s - n)%nat by lia.
  apply firstn_all2. rewrite length_skipn, length_list_ascii. lia.
Qed.

Lemma getNodeLabel_falsy node :
  Js.truthy (address_name node) = false ->
  getNodeLabel node = short_address (address node).
Proof.
  intros H. unfold getNodeLabel, short_address. rewrite H.
  now rewrite (slice_first 6), (slice_last 4) by lia.
Qed.

(** ** The sample session *)

Example world_0_inflight :
  inflight world_0
  = [ {| req_url := "/data/1.json?address=0x2be59e62d811a1a8a25a937c4812313cf8bbe428";
         req_fileIndex := 1;
         req_address := seed_address |} ].
Proof. reflexivity. Qed.

Example world_1_view :
  view world_1
  = {| graphData :=
         {| nodes := [node_A; node_B];
            links := [ {| id := "l1"; from := seed_address; to := "0xb";
                          source := Some node_A; target := Some node_B |} ] |};
       currentFileIndex := 2 |}.
Proof. reflexivity. Qed.

Example page_other_rejected :
  view (exec (fetchGraphData_resume (request_for 1 seed_address) (ok_page page_other))
             (take_request 0 world_0))
  = view initial_world.
Proof. reflexivity. Qed.

Example label_seed : getNodeLabel node_A = "0x2be5...e428".
Proof. reflexivity. Qed.

Example label_short_address :
  getNodeLabel {| address := "0xb"; address_name := None; type := None |}
  = "0xb...0xb".
Proof. reflexivity. Qed.

Lemma world_0_step : step initial_world EvFirstUpdated world_0.
Proof. apply step_firstUpdated. Qed.

Lemma world_1_step : step world_0 (EvSettle 0 (ok_page page_1)) world_1.
Proof. apply (step_settle world_0 0 (request_for 1 seed_address)). reflexivity. Qed.

Lemma world_1_reachable : reachable world_1.
Proof.
  exists [EvFirstUpdated; EvSettle 0 (ok_page page_1)].
  eapply steps_cons; [apply world_0_step|].
  eapply steps_cons; [apply world_1_step | apply steps_nil].
Qed.

(** * The claims *)

(** ** Acceptance of a page *)

Lemma world_2_step : step world_1 (EvClick node_B) world_2.
Proof. apply step_click. Qed.

Lemma world_2_reachable : reachable world_2.
Proof.
  exists [EvFirstUpdated; EvSettle 0 (ok_page page_1); EvClick node_B].
  eapply steps_cons; [apply world_0_step|].
  eapply steps_cons; [apply world_1_step|].
  eapply steps_cons; [apply world_2_step | apply steps_nil].
Qed.

(** When the page passes the filter and the link force takes the merged
    links, the page is accepted: graph merged, cursor one up, nothing
    logged.  When no link leaves the queried address, nothing changes but
    the console. *)
Lemma fetchGraphData_accepts (rq : Request) (data : GraphData) (w : World) :
  let w' := exec (fetchGraphData_resume rq (ok_page data)) w in
  let leaves_queried := exists link, In link (links data) /\ from link = req_address rq in
  (leaves_queried -> renders (graph_after data w) = true ->
   view w' = {| graphData := graph_after data w;
                currentFileIndex := currentFileIndex (view w) + 1 |}
   /\ console w' = console w)
  /\ (leaves_queried -> renders (graph_after data w) = false ->
      view w' = {| graphData := graph_after data w;
                   currentFileIndex := currentFileIndex (view w) |}
      /\ console w' = console w ++ [ErrRequest NodeNotFound])
  /\ (~ leaves_queried ->
      view w' = view w
      /\ console w' = console w ++ [LogNotFound (req_address rq) (req_fileIndex rq)]).
Proof.
  cbv zeta. unfold exec, ok_page. rewrite resume_page.
  destruct (existsb _ (links data)) eqn:E.
  - apply existsb_from_iff in E.
    destruct (renders (graph_after data w)); cbn [snd view console];
      repeat split; intros; try discriminate; try contradiction; reflexivity.
  - assert (Hno : ~ exists link, In link (links data) /\ from link = req_address rq).
    { intros H. apply existsb_from_iff in H. congruence. }
    repeat split; intros; try contradiction; reflexivity.
Qed.

(** C1, where the code departs from it.  In the session that loads
    [page_1] and then clicks the second node, the fetch for page 2 of
    [0xb] is answered by a page that has a link leaving [0xb] and a link
    whose target is on no page.  The filter passes and the graph is
    merged, but the link force throws on the undefined target inside
    [renderGraph]: line 98 is skipped, the cursor stays at 2, and line 103
    logs the exception.  The page is neither accepted nor discarded. *)
Theorem fetchGraphData_accepted_not_advanced :
  let rq := request_for 2 "0xb" in
  let w' := exec (fetchGraphData_resume rq (ok_page page_dangling))
                 (take_request 0 world_2) in
  step world_2 (EvSettle 0 (ok_page page_dangling)) w'
  /\ (exists link, In link (links page_dangling) /\ from link = req_address rq)
  /\ graphData (view w') = graph_after page_dangling world_2
  /\ graphData (view w') <> graphData (view world_2)
  /\ currentFileIndex (view world_2) = 2
  /\ currentFileIndex (view w') = 2
  /\ console w' = console world_2 ++ [ErrRequest NodeNotFound].
Proof.
  cbv zeta. split.
  - apply (step_settle world_2 0 (request_for 2 "0xb")). reflexivity.
  - split; [exists link_l2; split; [right; left|]; reflexivity|].
    split; [reflexivity|]. split; [discriminate|]. repeat split.
Qed.

(** ** Link resolution *)

(** After a merge no two nodes of the graph share an address, and each
    link's [source] is the node of the merged graph at the link's [from]
    address and its [target] the node at its [to] address, whenever there
    is one; where there is none the pointer is undefined.  The merged
    graph is written in either case; [updateGraph] completes normally
    exactly when no pointer is left undefined. *)
Lemma updateGraph_pointers (w : World) (d : GraphData) :
  let g' := graph_after d w in
  graphData (view (exec (updateGraph d) w)) = g'
  /\ completion (updateGraph d) w
     = (if renders g' then Normal tt else Throw NodeNotFound)
  /\ NoDup (map address (nodes g'))
  /\ forall l, In l (links g') ->
       (forall n, In n (nodes g') -> address n = from l -> source l = Some n)
       /\ (forall n, In n (nodes g') -> address n = to l -> target l = Some n)
       /\ (~ In (from l) (map address (nodes g')) -> source l = None)
       /\ (~ In (to l) (map address (nodes g')) -> target l = None).
Proof.
  cbv zeta. destruct (graph_after_wf d w) as [Hn _].
  split; [reflexivity|].
  split; [unfold completion; now rewrite updateGraph_run|]. split; [assumption|].
  intros l Hl. rewrite graph_after_links in Hl.
  apply in_map_iff in Hl as (l0 & <- & _). simpl.
  repeat split.
  - intros n Hin <-. now apply find_address_unique.
  - intros n Hin <-. now apply find_address_unique.
  - apply find_address_none.
  - apply find_address_none.
Qed.

(** C2, where the code departs from it.  Merging into the graph of
    [world_1] a page with a link from [0xb] to [0xc], an address no node
    has, resolves the link's source to the node at [0xb] and leaves its
    target undefined, as the claim says -- and then [updateGraph] throws:
    [renderGraph] passes the merged links to the link force, which does
    not take an undefined endpoint.  The merged graph has been written by
    then. *)
Theorem updateGraph_dangling_link_throws :
  let g' := graph_after page_dangling world_1 in
  let l2 := resolve (nodes g') link_l2 in
  In l2 (links g')
  /\ source l2 = Some node_B
  /\ ~ In (to l2) (map address (nodes g'))
  /\ target l2 = None
  /\ graphData (view (exec (updateGraph page_dangling) world_1)) = g'
  /\ completion (updateGraph page_dangling) world_1 = Throw NodeNotFound.
Proof.
  cbv zeta. split; [right; left; reflexivity|]. split; [reflexivity|].
  split; [|repeat split].
  vm_compute. intros [H|[H|[]]]; discriminate H.
Qed.

(** ** Merging what is already known *)

(** C3.  In every state the component reaches, merging a delta whose
    node addresses and link ids are all in the graph already leaves the
    number of nodes and the number of links as they were. *)
Theorem updateGraph_known_delta (w : World) (d : GraphData) :
  reachable w ->
  (forall n, In n (nodes d) -> In (address n) (map address (nodes (graphData (view w))))) ->
  (forall l, In l (links d) -> In (id l) (map id (links (graphData (view w))))) ->
  List.length (nodes (graph_after d w)) = List.length (nodes (graphData (view w)))
  /\ List.length (links (graph_after d w)) = List.length (links (graphData (view w))).
Proof.
  intros Hr Hn Hl. destruct (reachable_wf w Hr) as [Hdn Hdl].
  rewrite graph_after_links, length_map, graph_after_nodes.
  rewrite (merged_values_known address _ _ Hdn Hn).
  rewrite (merged_values_known id _ _ Hdl Hl). split; reflexivity.
Qed.

Lemma updateGraph_known_delta_witness :
  List.length (nodes (graph_after page_known world_1)) = 2%nat
  /\ List.length (links (graph_after page_known world_1)) = 1%nat.
Proof.
  apply (updateGraph_known_delta world_1 page_known world_1_reachable).
  - intros n [<-|[<-|[]]]; [right; left | left]; reflexivity.
  - intros l [<-|[]]. left. reflexivity.
Defined.

(** ** Growth *)

Lemma NoDup_map_In_eq {A B} (f : A -> B) (l : list A) x y :
  NoDup (map f l) -> In x l -> In y l -> f x = f y -> x = y.
Proof.
  induction l as [|a l IH]; simpl; intros Hd Hx Hy E; [contradiction|].
  inversion Hd as [|? ? Hnot Hd']; subst.
  destruct Hx as [->|Hx], Hy as [->|Hy]; auto.
  - exfalso. apply Hnot. rewrite E. now apply in_map.
  - exfalso. apply Hnot. rewrite <- E. now apply in_map.
Qed.

(** C4.  In every state the component reaches, a merge only adds: each
    node address and each link id of the graph is still there afterwards;
    the old nodes are the first nodes of the new list, unchanged and in
    the same order, and what follows them comes from the delta; the same
    holds for the links up to their re-resolved pointers; and a node of
    the merged graph that carries the address of an old node is that old
    node, so a delta node with a known address changes nothing of it. *)
Theorem updateGraph_monotone (w : World) (d : GraphData) :
  reachable w ->
  let g := graphData (view w) in
  let g' := graph_after d w in
  (forall a, In a (map address (nodes g)) -> In a (map address (nodes g')))
  /\ (forall i, In i (map id (links g)) -> In i (map id (links g')))
  /\ (exists extra,
        nodes g' = nodes g ++ extra /\ forall n, In n extra -> In n (nodes d))
  /\ (exists extra,
        map link_key (links g') = map link_key (links g ++ extra)
        /\ forall l, In l extra -> In l (links d))
  /\ (forall n0 n,
        In n0 (nodes g) -> In n (nodes g') -> address n = address n0 -> n = n0).
Proof.
  intros Hr. cbv zeta. destruct (reachable_wf w Hr) as [Hdn Hdl].
  destruct (merged_values_extend address _ (nodes d) Hdn) as (xn & En & Hxn).
  destruct (merged_values_extend id _ (links d) Hdl) as (xl & El & Hxl).
  assert (Hnodes : nodes (graph_after d w) = nodes (graphData (view w)) ++ xn)
    by (rewrite graph_after_nodes; exact En).
  assert (Hlinks : links (graph_after d w)
                   = map (resolve (nodes (graph_after d w)))
                         (links (graphData (view w)) ++ xl))
    by (rewrite graph_after_links; now rewrite El).
  repeat split.
  - intros a Ha. rewrite Hnodes, map_app. apply in_or_app. now left.
  - intros i Hi. rewrite Hlinks, map_id_resolve, map_app. apply in_or_app. now left.
  - exists xn. split; assumption.
  - exists xl. split; [|assumption]. rewrite Hlinks. apply map_key_resolve.
  - intros n0 n H0 Hn E.
    destruct (graph_after_wf d w) as [Hd' _].
    apply (NoDup_map_In_eq address _ n n0 Hd'); auto.
    rewrite Hnodes. apply in_or_app. now left.
Qed.

Lemma updateGraph_monotone_witness :
  let g := graphData (view world_1) in
  let g' := graph_after page_dangling world_1 in
  (exists extra,
     nodes g' = nodes g ++ extra /\ forall n, In n extra -> In n (nodes page_dangling))
  /\ (forall n, In n (nodes g') -> address n = address node_B -> n = node_B).
Proof.
  cbv zeta.
  destruct (updateGraph_monotone world_1 page_dangling world_1_reachable)
    as (_ & _ & Hnodes & _ & Hfirst).
  split; [exact Hnodes|].
  intros n Hn E. apply (Hfirst node_B n); [right; left; reflexivity | exact Hn | exact E].
Defined.

Example merge_first_seen_wins :
  nodes (graph_after page_dangling world_1) = [node_A; node_B]
  /\ map link_key (links (graph_after page_dangling world_1))
     = [link_key link_l1; link_key link_l2].
Proof. split; reflexivity. Qed.

(** ** The page cursor *)

Lemma steps_cursor_le w es w' :
  steps w es w' -> currentFileIndex (view w) <= currentFileIndex (view w').
Proof.
  induction 1 as [|w e w' es w'' Hstep _ IH]; [lia|].
  rewrite (step_cursor _ _ _ Hstep) in IH.
  destruct (event_advances w e); lia.
Qed.

(** C5.  The cursor starts at 1.  An event either leaves it as it was
    or moves it up by exactly one, and it moves it only when it is the
    settling of a fetch whose page is accepted (success response, parsed
    body, a link leaving the queried address): after a click,
    [firstUpdated], a scene event, a fetch that failed or a page that was
    rejected the cursor is what it was.  Precisely, the cursor goes up
    when the page is accepted and the link force takes the merged links.
    So it never goes down along a session and never falls below 1. *)
Theorem cursor_lifecycle :
  currentFileIndex (view initial_world) = 1
  /\ (forall w e w',
        step w e w' ->
        currentFileIndex (view w') = currentFileIndex (view w)
        \/ currentFileIndex (view w') = currentFileIndex (view w) + 1)
  /\ (forall w e w',
        step w e w' ->
        currentFileIndex (view w') <> currentFileIndex (view w) ->
        event_accepted w e = true)
  /\ (forall w e w',
        step w e w' ->
        event_accepted w e = false ->
        currentFileIndex (view w') = currentFileIndex (view w))
  /\ (forall w e w',
        step w e w' ->
        currentFileIndex (view w')
        = currentFileIndex (view w) + (if event_advances w e then 1 else 0))
  /\ (forall w es w',
        steps w es w' -> currentFileIndex (view w) <= currentFileIndex (view w'))
  /\ (forall w, reachable w -> 1 <= currentFileIndex (view w)).
Proof.
  split; [reflexivity|]. split; [|split; [|split; [|split; [|split]]]].
  - intros w e w' H. rewrite (step_cursor _ _ _ H).
    destruct (event_advances w e); [right | left]; lia.
  - intros w e w' H Hne. rewrite (step_cursor _ _ _ H) in Hne.
    destruct (event_advances w e) eqn:E; [now apply event_advances_accepted | lia].
  - intros w e w' H Hno. rewrite (step_cursor _ _ _ H).
    destruct (event_advances w e) eqn:E; [|lia].
    apply event_advances_accepted in E. congruence.
  - exact step_cursor.
  - exact steps_cursor_le.
  - intros w [es H]. exact (steps_cursor_le _ _ _ H).
Qed.

Lemma cursor_lifecycle_witness :
  currentFileIndex (view world_1) = currentFileIndex (view world_0) + 1
  /\ currentFileIndex (view world_2) = currentFileIndex (view world_1)
  /\ event_accepted world_0 (EvSettle 0 (ok_page page_1)) = true
  /\ 1 <= currentFileIndex (view world_2).
Proof.
  destruct cursor_lifecycle as (_ & _ & Honly & Hkeep & Hstep & _ & Hreach).
  split; [exact (Hstep _ _ _ world_1_step)|].
  split; [exact (Hkeep _ _ _ world_2_step eq_refl)|].
  split; [apply (Honly _ _ _ world_1_step); discriminate|].
  exact (Hreach _ world_2_reachable).
Defined.

(** ** Failed fetches *)

(** C6.  When the fetch rejects, the response is not a success, or the
    body does not parse, the resumed [fetchGraphData] leaves the graph and
    the cursor exactly as they were, writes one line to the console and
    completes normally: nothing is thrown to the caller.  Issuing the
    fetch changes neither and completes normally as well. *)
Theorem fetchGraphData_failure_no_change (rq : Request) (result : FetchResult) (w : World) :
  fetch_failed result = true ->
  let w' := exec (fetchGraphData_resume rq result) w in
  view w' = view w
  /\ console w' = console w ++ [failure_line rq result]
  /\ inflight w' = inflight w
  /\ completion (fetchGraphData_resume rq result) w = Normal tt
  /\ view (exec (fetchGraphData (req_fileIndex rq) (req_address rq)) w) = view w
  /\ completion (fetchGraphData (req_fileIndex rq) (req_address rq)) w = Normal tt.
Proof.
  intros Hf. cbv zeta.
  rewrite resume_completes, resume_view. unfold exec, completion.
  rewrite fetchGraphData_run.
  destruct result as [|[[|] [data|]]]; simpl in Hf; try discriminate Hf.
  - rewrite resume_rejected. repeat split.
  - rewrite resume_bad_json. repeat split.
  - rewrite resume_not_ok. repeat split.
  - rewrite resume_not_ok. repeat split.
Qed.

Lemma fetchGraphData_failure_no_change_witness :
  let rq := request_for 2 "0xb" in
  let result := Resolved {| ok := false; json := Some page_dangling |} in
  let w' := exec (fetchGraphData_resume rq result) world_1 in
  view w' = view world_1
  /\ console w' = console world_1 ++ [ErrLoad "/data/2.json?address=0xb"].
Proof.
  cbv zeta.
  destruct (fetchGraphData_failure_no_change
              (request_for 2 "0xb")
              (Resolved {| ok := false; json := Some page_dangling |})
              world_1 eq_refl) as (Hv & Hc & _).
  split; [exact Hv | exact Hc].
Defined.

(** ** Clicks *)

(** C7.  A click on a node issues a fetch -- for the cursor's current
    value and the node's address -- exactly when the cursor is at most 3,
    and never touches graph or cursor.  With the cursor above 3, at 4 in
    particular, no fetch is issued and the component is unchanged. *)
Theorem onNodeClick_fetch_iff (d : GraphNode) (w : World) :
  let c := currentFileIndex (view w) in
  let w' := exec (onNodeClick d) w in
  view w' = view w
  /\ (inflight w' = inflight w ++ [request_for c (address d)] <-> c <= 3)
  /\ (3 < c -> inflight w' = inflight w)
  /\ (c = 4 -> inflight w' = inflight w /\ view w' = view w).
Proof.
  cbv zeta. unfold exec. rewrite onNodeClick_run. simpl.
  destruct (currentFileIndex (view w) <=? 3) eqn:E.
  - apply Z.leb_le in E. repeat split; try lia; auto.
  - apply Z.leb_gt in E. repeat split; try lia; auto.
    intros H. apply (f_equal (@List.length Request)) in H.
    rewrite length_app in H. simpl in H. lia.
Qed.

Lemma onNodeClick_fetch_iff_witness :
  inflight (exec (onNodeClick node_B) world_past_end) = inflight world_past_end
  /\ view (exec (onNodeClick node_B) world_past_end) = view world_past_end
  /\ inflight (exec (onNodeClick node_B) world_1)
     = inflight world_1 ++ [request_for 2 "0xb"].
Proof.
  destruct (onNodeClick_fetch_iff node_B world_past_end) as (_ & _ & _ & H4).
  destruct (H4 eq_refl) as [Hi Hv].
  split; [exact Hi|]. split; [exact Hv|].
  apply (proj2 (proj1 (proj2 (onNodeClick_fetch_iff node_B world_1)))).
  vm_compute. discriminate.
Defined.

(** ** Labels and colors *)

(** C8, as the code has it.  A display name that is present and not the
    empty string is the label.  Without one -- the field is absent or is
    the empty string -- the label is the first 6 characters of the
    address, three dots, and its last 4 characters; the seed address
    gives [0x2be5...e428]. *)
Theorem getNodeLabel_policy (node : GraphNode) :
  (forall name,
     address_name node = Some name -> name <> "" -> getNodeLabel node = name)
  /\ (address_name node = None \/ address_name node = Some "" ->
      getNodeLabel node = short_address (address node))
  /\ (address node = "0x2be59e62d811a1a8a25a937c4812313cf8bbe428" ->
      address_name node = None ->
      getNodeLabel node = "0x2be5...e428").
Proof.
  repeat split.
  - intros name E Hne. unfold getNodeLabel. rewrite E.
    destruct name; [contradiction | reflexivity].
  - intros [E|E]; apply getNodeLabel_falsy; now rewrite E.
  - intros Ea En. unfold getNodeLabel. rewrite En, Ea. reflexivity.
Qed.

Lemma getNodeLabel_policy_witness :
  getNodeLabel node_B = "Exchange" /\ getNodeLabel node_A = "0x2be5...e428".
Proof.
  split.
  - apply (proj1 (getNodeLabel_policy node_B) "Exchange"); [reflexivity | discriminate].
  - apply (proj2 (proj2 (getNodeLabel_policy node_A))); reflexivity.
Defined.

(** C8 as worded fails on a display name that is present and empty: the
    label is then the short address, not the name. *)
Lemma getNodeLabel_present_name_counterexample :
  let node := {| address := seed_address; address_name := Some ""; type := None |} in
  address_name node = Some ""
  /\ getNodeLabel node = "0x2be5...e428"
  /\ getNodeLabel node <> "".
Proof. cbv zeta. split; [reflexivity|]. split; [reflexivity | discriminate]. Qed.

(** C9.  The color of a node is orange for type [cex], purple for
    [stakingpool], green for [token], blue for [dao], red for [gambling],
    and the gray [#666] for any other type and for a node without one. *)
Theorem getNodeColor_table (node : GraphNode) :
  (type node = Some "cex" -> getNodeColor node = "orange")
  /\ (type node = Some "stakingpool" -> getNodeColor node = "purple")
  /\ (type node = Some "token" -> getNodeColor node = "green")
  /\ (type node = Some "dao" -> getNodeColor node = "blue")
  /\ (type node = Some "gambling" -> getNodeColor node = "red")
  /\ (type node = None -> getNodeColor node = "#666")
  /\ (forall t,
        type node = Some t ->
        ~ In t ["cex"; "stakingpool"; "token"; "dao"; "gambling"] ->
        getNodeColor node = "#666").
Proof.
  unfold getNodeColor.
  repeat split; try (intros E; rewrite E; reflexivity).
  intros t E Hnot. rewrite E. simpl in *.
  repeat match goal with
         | |- context [String.eqb t ?s] =>
             destruct (String.eqb_spec t s); [exfalso; apply Hnot; subst t; intuition|]
         end.
  reflexivity.
Qed.

Lemma getNodeColor_table_witness :
  getNodeColor {| address := "0xd"; address_name := None; type := Some "token" |}
  = "green"
  /\ getNodeColor {| address := "0xd"; address_name := None;
                     type := Some "unknown-category" |} = "#666"
  /\ getNodeColor node_A = "#666".
Proof.
  split; [|split].
  - apply (getNodeColor_table
             {| address := "0xd"; address_name := None; type := Some "token" |}).
    reflexivity.
  - apply (proj2 (proj2 (proj2 (proj2 (proj2 (proj2
             (getNodeColor_table
                {| address := "0xd"; address_name := None;
                   type := Some "unknown-category" |})))))) "unknown-category").
    + reflexivity.
    + simpl. intros [H|[H|[H|[H|[H|[]]]]]]; discriminate H.
  - apply (getNodeColor_table node_A). reflexivity.
Defined.

(** C10.  A node whose display name is the empty string is labelled
    with the short form of its address, exactly as if it had no display
    name. *)
Theorem getNodeLabel_empty_name (node : GraphNode) :
  address_name node = Some "" ->
  getNodeLabel node = short_address (address node)
  /\ getNodeLabel node
     = getNodeLabel {| address := address node; address_name := None;
                       type := type node |}
  /\ getNodeLabel node <> "".
Proof.
  intros E.
  assert (H : getNodeLabel node = short_address (address node))
    by (apply getNodeLabel_falsy; now rewrite E).
  split; [exact H|]. split.
  - rewrite H. symmetry.
    exact (getNodeLabel_falsy
             {| address := address node; address_name := None; type := type node |}
             eq_refl).
  - rewrite H. unfold short_address.
    destruct (first_chars 6 (address node)); simpl; discriminate.
Qed.

Lemma getNodeLabel_empty_name_witness :
  getNodeLabel {| address := seed_address; address_name := Some ""; type := Some "cex" |}
  = short_address seed_address.
Proof.
  apply (getNodeLabel_empty_name
           {| address := seed_address; address_name := Some ""; type := Some "cex" |}).
  reflexivity.
Defined.

(** * Further properties of the merge *)

Section MergeOrder.
Context {V : Type}.
Implicit Types (m : JsMap.t V) (key : V -> string) (vs : list V).

Lemma has_existsb_keys k m :
  JsMap.has k m = existsb (fun k' => String.eqb k' k) (JsMap.keys m).
Proof.
  unfold JsMap.has, JsMap.keys. induction m as [|e m IH]; simpl; congruence.
Qed.

Lemma add_absent_cons key v vs m :
  add_absent key (v :: vs) m
  = add_absent key vs
      (if negb (JsMap.has (key v) m) then JsMap.set (key v) v m else m).
Proof. reflexivity. Qed.

Lemma add_absent_fresh key vs m :
  add_absent key vs m = m ++ entries key (fresh_first key (JsMap.keys m) vs).
Proof.
  revert m. induction vs as [|v vs IH]; intros m.
  - simpl. now rewrite app_nil_r.
  - rewrite add_absent_cons. simpl fresh_first.
    rewrite <- has_existsb_keys.
    destruct (JsMap.has (key v) m) eqn:E; simpl negb; cbv iota.
    + apply IH.
    + rewrite (set_absent _ _ _ E), IH. rewrite <- app_assoc.
      unfold JsMap.keys. rewrite map_app. reflexivity.
Qed.

Lemma fold_set_keys_In (es : list (string * V)) m k :
  In k (JsMap.keys (fold_left (fun m e => JsMap.set (fst e) (snd e) m) es m))
  <-> In k (JsMap.keys m) \/ In k (JsMap.keys es).
Proof.
  revert m. induction es as [|[k0 v0] es IH]; intros m; simpl.
  - tauto.
  - rewrite IH, set_keys.
    destruct (JsMap.has k0 m) eqn:E.
    + apply has_true_iff in E. intuition (subst; auto).
    + rewrite in_app_iff. simpl. tauto.
Qed.

Lemma add_absent_keys_In key vs m k :
  In k (JsMap.keys (add_absent key vs m))
  <-> In k (JsMap.keys m) \/ In k (map key vs).
Proof.
  revert m. induction vs as [|v vs IH]; intros m.
  - simpl. tauto.
  - rewrite add_absent_cons.
    destruct (JsMap.has (key v) m) eqn:E; simpl negb; cbv iota; rewrite IH.
    + apply has_true_iff in E. simpl. intuition (subst; auto).
    + rewrite set_keys, E, in_app_iff. simpl. tauto.
Qed.

Lemma merged_keys_In key vs ws k :
  In k (map key (JsMap.values (add_absent key ws (JsMap.of_entries (entries key vs)))))
  <-> In k (map key vs) \/ In k (map key ws).
Proof.
  destruct (of_entries_keyed_NoDup key vs) as [Hk Hn].
  destruct (add_absent_spec key ws _ Hk Hn) as (extra & E & Hk' & _).
  rewrite <- keyed_keys by (rewrite E; exact Hk').
  rewrite add_absent_keys_In. unfold JsMap.of_entries.
  rewrite fold_set_keys_In. simpl.
  unfold JsMap.keys at 1, entries. rewrite map_map. simpl. tauto.
Qed.

Lemma merged_values_fresh key vs ws :
  NoDup (map key vs) ->
  JsMap.values (add_absent key ws (JsMap.of_entries (entries key vs)))
  = vs ++ fresh_first key (map key vs) ws.
Proof.
  intros Hd. rewrite add_absent_fresh.
  unfold JsMap.values at 1. rewrite map_app.
  fold (JsMap.values (JsMap.of_entries (entries key vs))).
  rewrite (of_entries_distinct key vs Hd). f_equal.
  - unfold entries at 1. rewrite map_map. simpl. rewrite map_id.
    destruct (of_entries_keyed_NoDup key vs) as [Hk _].
    now rewrite (keyed_keys key _ Hk), (of_entries_distinct key vs Hd).
Qed.
End MergeOrder.

Lemma resolve_resolved ns l : resolved_against ns (resolve ns l).
Proof. split; reflexivity. Qed.

Lemma resolve_fixed ns l : resolved_against ns l -> resolve ns l = l.
Proof.
  destruct l as [i f t s g]. unfold resolved_against, resolve. simpl.
  intros [-> ->]. reflexivity.
Qed.

Lemma graph_after_resolved d w l :
  In l (links (graph_after d w)) ->
  resolved_against (nodes (graph_after d w)) l.
Proof.
  rewrite graph_after_links. intros H.
  apply in_map_iff in H as (l0 & <- & _). apply resolve_resolved.
Qed.

Lemma graph_after_congr d w1 w2 :
  graphData (view w1) = graphData (view w2) ->
  graph_after d w1 = graph_after d w2.
Proof.
  intros E. unfold graph_after, exec, updateGraph, bind, get_graphData. simpl.
  now rewrite E.
Qed.

(** A delta of known keys leaves a graph of unique keys and resolved
    links exactly as it is. *)
Lemma graph_after_known d w :
  graph_wf (graphData (view w)) ->
  (forall l, In l (links (graphData (view w))) ->
             resolved_against (nodes (graphData (view w))) l) ->
  (forall n, In n (nodes d) -> In (address n) (map address (nodes (graphData (view w))))) ->
  (forall l, In l (links d) -> In (id l) (map id (links (graphData (view w))))) ->
  graph_after d w = graphData (view w).
Proof.
  intros [Hdn Hdl] Hres Hn Hl.
  assert (En : nodes (graph_after d w) = nodes (graphData (view w)))
    by (rewrite graph_after_nodes; now apply merged_values_known).
  assert (El : links (graph_after d w) = links (graphData (view w))).
  { rewrite graph_after_links, En, (merged_values_known id _ _ Hdl Hl).
    rewrite <- (map_id (links (graphData (view w)))) at 2.
    apply map_ext_in. intros l Hin. apply resolve_fixed. now apply Hres. }
  destruct (graph_after d w) as [ns ls], (graphData (view w)) as [ns0 ls0].
  simpl in En, El. now subst.
Qed.

Lemma step_resolved w e w' :
  step w e w' ->
  (forall l, In l (links (graphData (view w))) ->
             resolved_against (nodes (graphData (view w))) l) ->
  forall l, In l (links (graphData (view w'))) ->
            resolved_against (nodes (graphData (view w'))) l.
Proof.
  intros H Hres. destruct (step_view _ _ _ H) as [->|(data & _ & ->)];
    [assumption | simpl; apply graph_after_resolved].
Qed.

Lemma steps_resolved w es w' :
  steps w es w' ->
  (forall l, In l (links (graphData (view w))) ->
             resolved_against (nodes (graphData (view w))) l) ->
  forall l, In l (links (graphData (view w'))) ->
            resolved_against (nodes (graphData (view w'))) l.
Proof.
  induction 1 as [|w e w' es w'' Hstep _ IH]; intros Hres; [assumption|].
  apply IH. exact (step_resolved _ _ _ Hstep Hres).
Qed.

(** X1.  In a reachable state the merged node list is the old list
    followed, in page order, by the first node of each address that is new;
    the merged link list is built the same way by id, every link then
    re-resolved against the merged nodes. *)
Theorem updateGraph_order (w : World) (d : GraphData) :
  reachable w ->
  let g := graphData (view w) in
  let g' := graph_after d w in
  nodes g' = nodes g ++ fresh_first address (map address (nodes g)) (nodes d)
  /\ links g'
     = map (resolve (nodes g'))
         (links g ++ fresh_first id (map id (links g)) (links d)).
Proof.
  intros Hr. cbv zeta. destruct (reachable_wf w Hr) as [Hdn Hdl]. split.
  - rewrite graph_after_nodes. now apply merged_values_fresh.
  - rewrite graph_after_links. f_equal. now apply merged_values_fresh.
Qed.

Lemma updateGraph_order_witness :
  nodes (graph_after page_dangling world_1) = [node_A; node_B] ++ []
  /\ links (graph_after page_dangling world_1)
     = map (resolve (nodes (graph_after page_dangling world_1)))
         (links (graphData (view world_1)) ++ [link_l2]).
Proof.
  exact (updateGraph_order world_1 page_dangling world_1_reachable).
Defined.

Lemma graph_after_addresses d w a :
  In a (map address (nodes (graph_after d w)))
  <-> In a (map address (nodes (graphData (view w)))) \/ In a (map address (nodes d)).
Proof. rewrite graph_after_nodes. apply merged_keys_In. Qed.

Lemma graph_after_ids d w i :
  In i (map id (links (graph_after d w)))
  <-> In i (map id (links (graphData (view w)))) \/ In i (map id (links d)).
Proof. rewrite graph_after_links, map_id_resolve. apply merged_keys_In. Qed.

(** X2.  Whatever the state, an address is among the merged nodes
    exactly when it was among the old nodes or is among the nodes of the
    delta, and an id is among the merged links exactly when it was among
    the old links or is among the links of the delta. *)
Theorem updateGraph_membership (w : World) (d : GraphData) :
  let g := graphData (view w) in
  let g' := graph_after d w in
  (forall a, In a (map address (nodes g'))
             <-> In a (map address (nodes g)) \/ In a (map address (nodes d)))
  /\ (forall i, In i (map id (links g'))
                <-> In i (map id (links g)) \/ In i (map id (links d))).
Proof.
  cbv zeta. split; [intros a; apply graph_after_addresses | intros i; apply graph_after_ids].
Qed.

(** X3.  Merging the same delta a second time changes nothing: the
    graph after two merges of a delta is the graph after one, pointers
    included.  This holds from any state. *)
Theorem updateGraph_idempotent (w : World) (d : GraphData) :
  graph_after d (exec (updateGraph d) w) = graph_after d w.
Proof.
  transitivity (graphData (view (exec (updateGraph d) w))); [|reflexivity].
  apply graph_after_known;
    change (graphData (view (exec (updateGraph d) w))) with (graph_after d w).
  - apply graph_after_wf.
  - intros l. apply graph_after_resolved.
  - intros n Hn. apply graph_after_addresses. right. now apply in_map.
  - intros l Hl. apply graph_after_ids. right. now apply in_map.
Qed.

Lemma reachable_resolved w l :
  reachable w ->
  In l (links (graphData (view w))) ->
  resolved_against (nodes (graphData (view w))) l.
Proof.
  intros [es H]. revert l. apply (steps_resolved _ _ _ H). intros l [].
Qed.

(** X4.  In a reachable state, merging a delta whose node addresses and
    link ids are all known leaves the graph exactly as it is: the same
    nodes, the same links, the same pointers. *)
Theorem updateGraph_known_noop (w : World) (d : GraphData) :
  reachable w ->
  (forall n, In n (nodes d) -> In (address n) (map address (nodes (graphData (view w))))) ->
  (forall l, In l (links d) -> In (id l) (map id (links (graphData (view w))))) ->
  graph_after d w = graphData (view w).
Proof.
  intros Hr Hn Hl. apply graph_after_known; auto.
  - now apply reachable_wf.
  - intros l. now apply reachable_resolved.
Qed.

Lemma updateGraph_known_noop_witness :
  graph_after page_known world_1 = graphData (view world_1).
Proof.
  apply (updateGraph_known_noop world_1 page_known world_1_reachable).
  - intros n [<-|[<-|[]]]; [right; left | left]; reflexivity.
  - intros l [<-|[]]. left. reflexivity.
Defined.

(** ** Invariants of a session *)

Lemma find_address_some ns a n :
  Js.find (fun n' => String.eqb (address n') a) ns = Some n ->
  In n ns /\ address n = a.
Proof.
  unfold Js.find. intros H. apply find_some in H as [Hin E].
  split; [assumption | now apply String.eqb_eq].
Qed.

(** X5.  In every reachable state no two nodes share an address, no two
    links share an id, and the pointers of every link are up to date: they
    are what a lookup of [from] and [to] in the current node list gives,
    so a pointer that is set leads to a node of the graph with that
    address. *)
Theorem reachable_graph_consistent (w : World) :
  reachable w ->
  let g := graphData (view w) in
  NoDup (map address (nodes g))
  /\ NoDup (map id (links g))
  /\ forall l, In l (links g) ->
       resolved_against (nodes g) l
       /\ (forall n, source l = Some n -> In n (nodes g) /\ address n = from l)
       /\ (forall n, target l = Some n -> In n (nodes g) /\ address n = to l).
Proof.
  intros Hr. cbv zeta. destruct (reachable_wf w Hr) as [Hdn Hdl].
  split; [assumption|]. split; [assumption|].
  intros l Hl. destruct (reachable_resolved w l Hr Hl) as [Hs Ht].
  split; [split; assumption|]. split; intros n E.
  - rewrite Hs in E. now apply find_address_some in E.
  - rewrite Ht in E. now apply find_address_some in E.
Qed.

Lemma reachable_graph_consistent_witness :
  let g := graphData (view world_1) in
  let l := resolve (nodes g) link_l1 in
  In l (links g) /\ In node_B (nodes g) /\ address node_B = to l.
Proof.
  cbv zeta.
  assert (Hl : In (resolve (nodes (graphData (view world_1))) link_l1)
                  (links (graphData (view world_1))))
    by (left; reflexivity).
  destruct (reachable_graph_consistent world_1 world_1_reachable) as (_ & _ & H).
  destruct (H _ Hl) as (_ & _ & Ht).
  split; [exact Hl|]. exact (Ht node_B eq_refl).
Defined.

Lemma step_grows w e w' :
  step w e w' -> graph_wf (graphData (view w)) ->
  (exists xn, nodes (graphData (view w')) = nodes (graphData (view w)) ++ xn)
  /\ (exists xl, map link_key (links (graphData (view w')))
                 = map link_key (links (graphData (view w))) ++ xl).
Proof.
  intros H [Hdn Hdl].
  destruct (step_view _ _ _ H) as [->|(data & _ & ->)].
  - split; exists []; now rewrite app_nil_r.
  - cbn [graphData]. rewrite graph_after_links, map_key_resolve, graph_after_nodes.
    unfold take_request. cbn [view].
    destruct (merged_values_extend address _ (nodes data) Hdn) as (xn & -> & _).
    destruct (merged_values_extend id _ (links data) Hdl) as (xl & -> & _).
    split; [now exists xn|]. exists (map link_key xl). apply map_app.
Qed.

Lemma steps_grow w es w' :
  steps w es w' -> graph_wf (graphData (view w)) ->
  (exists xn, nodes (graphData (view w')) = nodes (graphData (view w)) ++ xn)
  /\ (exists xl, map link_key (links (graphData (view w')))
                 = map link_key (links (graphData (view w))) ++ xl).
Proof.
  induction 1 as [w|w e w' es w'' Hstep Hsteps IH]; intros Hwf.
  - split; exists []; now rewrite app_nil_r.
  - destruct (step_grows _ _ _ Hstep Hwf) as [(xn1 & En1) (xl1 & El1)].
    destruct (IH (step_wf _ _ _ Hstep Hwf)) as [(xn2 & En2) (xl2 & El2)].
    split.
    + exists (xn1 ++ xn2). now rewrite En2, En1, app_assoc.
    + exists (xl1 ++ xl2). now rewrite El2, El1, app_assoc.
Qed.

(** X6.  Whatever happens after a reachable state -- clicks, settled
    fetches of any outcome, [firstUpdated], scene events, in any number
    and order -- the node list of that state stays the beginning of the
    node list, and its links (id, from, to) the beginning of the link
    list: nothing is ever removed or reordered. *)
Theorem session_only_appends (w : World) (es : list Event) (w' : World) :
  reachable w ->
  steps w es w' ->
  (exists xn, nodes (graphData (view w')) = nodes (graphData (view w)) ++ xn)
  /\ (exists xl, map link_key (links (graphData (view w')))
                 = map link_key (links (graphData (view w))) ++ xl).
Proof.
  intros Hr H. apply (steps_grow _ _ _ H). now apply reachable_wf.
Qed.

Lemma session_only_appends_witness :
  exists xn,
    nodes (graphData (view (exec (onNodeClick node_B) world_1)))
    = nodes (graphData (view world_1)) ++ xn.
Proof.
  refine (proj1 (session_only_appends world_1 [EvClick node_B] _ world_1_reachable _)).
  eapply steps_cons; [apply step_click | apply steps_nil].
Defined.

(** ** Requests *)

Lemma firstUpdated_run w :
  firstUpdated w
  = (Normal tt,
     {| view := view w;
        console := console w;
        inflight := inflight w
                    ++ [request_for (currentFileIndex (view w)) seed_address] |}).
Proof. reflexivity. Qed.

Lemma resume_inflight rq result w :
  inflight (exec (fetchGraphData_resume rq result) w) = inflight w.
Proof.
  unfold exec. destruct result as [|[[|] [data|]]].
  - now rewrite resume_rejected.
  - rewrite resume_page.
    destruct (existsb _ (links data)); [|reflexivity].
    now destruct (renders (graph_after data w)).
  - now rewrite resume_bad_json.
  - now rewrite resume_not_ok.
  - now rewrite resume_not_ok.
Qed.

Lemma In_take_request {A} i (l : list A) a :
  In a (firstn i l ++ skipn (S i) l) -> In a l.
Proof.
  revert i. induction l as [|b l IH]; intros i H.
  - destruct i; simpl in H; contradiction.
  - destruct i as [|i]; simpl in H.
    + now right.
    + destruct H as [->|H]; [now left | right; now apply (IH i)].
Qed.

Lemma request_ok_mono c c' rq : c <= c' -> request_ok c rq -> request_ok c' rq.
Proof. unfold request_ok. intros Hc [[H1 H2] H3]. repeat split; auto; lia. Qed.

Lemma request_for_ok c addr : 1 <= c -> request_ok c (request_for c addr).
Proof. unfold request_ok. simpl. intros H. repeat split; auto; lia. Qed.

Lemma step_requests w e w' :
  step w e w' ->
  1 <= currentFileIndex (view w) ->
  Forall (request_ok (currentFileIndex (view w))) (inflight w) ->
  Forall (request_ok (currentFileIndex (view w'))) (inflight w').
Proof.
  intros H Hc Hall. destruct H as [w|w d|w i rq result Hrq|w].
  - unfold exec. rewrite firstUpdated_run. simpl.
    apply Forall_app. split; [assumption|].
    constructor; [now apply request_for_ok | constructor].
  - unfold exec. rewrite onNodeClick_run. simpl.
    destruct (currentFileIndex (view w) <=? 3); [|assumption].
    apply Forall_app. split; [assumption|].
    constructor; [now apply request_for_ok | constructor].
  - pose proof (step_cursor _ _ _ (step_settle w i rq result Hrq)) as Ec.
    rewrite resume_inflight. simpl.
    apply Forall_forall. intros r Hr. apply In_take_request in Hr.
    apply (request_ok_mono (currentFileIndex (view w))).
    + rewrite Ec. destruct (event_advances _ _); lia.
    + rewrite Forall_forall in Hall. now apply Hall.
  - assumption.
Qed.

Lemma steps_requests w es w' :
  steps w es w' ->
  1 <= currentFileIndex (view w)
  /\ Forall (request_ok (currentFileIndex (view w))) (inflight w) ->
  1 <= currentFileIndex (view w')
  /\ Forall (request_ok (currentFileIndex (view w'))) (inflight w').
Proof.
  induction 1 as [w|w e w' es w'' Hstep _ IH]; intros Hinv; [assumption|].
  apply IH. destruct Hinv as [Hc Hall]. split.
  - rewrite (step_cursor _ _ _ Hstep). destruct (event_advances w e); lia.
  - exact (step_requests _ _ _ Hstep Hc Hall).
Qed.

(** X7.  In every reachable state each fetch in flight asks for a page
    index between 1 and the current value of the cursor -- never for a
    page ahead of it -- and its URL is [/data/<index>.json?address=<address>]
    for its own index and address. *)
Theorem requests_behind_cursor (w : World) :
  reachable w ->
  1 <= currentFileIndex (view w)
  /\ Forall (request_ok (currentFileIndex (view w))) (inflight w).
Proof.
  intros [es H]. apply (steps_requests _ _ _ H).
  split; [simpl; lia | constructor].
Qed.

Lemma requests_behind_cursor_witness :
  Forall (request_ok 2) (inflight (exec (onNodeClick node_B) world_1)).
Proof.
  refine (proj2 (requests_behind_cursor (exec (onNodeClick node_B) world_1) _)).
  exists [EvFirstUpdated; EvSettle 0 (ok_page page_1); EvClick node_B].
  eapply steps_cons; [apply world_0_step|].
  eapply steps_cons; [apply world_1_step|].
  eapply steps_cons; [apply step_click | apply steps_nil].
Defined.

(** ** Clicks that outrun the cursor *)

Lemma steps_app w es1 w1 es2 w2 :
  steps w es1 w1 -> steps w1 es2 w2 -> steps w (es1 ++ es2) w2.
Proof.
  induction 1 as [|w e w' es w'' Hstep _ IH]; intros H2; [assumption|].
  simpl. eapply steps_cons; [exact Hstep | now apply IH].
Qed.

Lemma clicks_pile_up d k : forall w,
  currentFileIndex (view w) <= 3 ->
  exists w1,
    steps w (repeat (EvClick d) k) w1
    /\ view w1 = view w
    /\ inflight w1
       = inflight w ++ repeat (request_for (currentFileIndex (view w)) (address d)) k.
Proof.
  induction k as [|k IH]; intros w Hc.
  - exists w. simpl. rewrite app_nil_r. repeat split. apply steps_nil.
  - pose proof (onNodeClick_run d w) as Hrun. cbv zeta in Hrun.
    apply Z.leb_le in Hc. rewrite Hc in Hrun. apply Z.leb_le in Hc.
    assert (Hv : view (exec (onNodeClick d) w) = view w)
      by (unfold exec; now rewrite Hrun).
    assert (Hi : inflight (exec (onNodeClick d) w)
                 = inflight w ++ [request_for (currentFileIndex (view w)) (address d)])
      by (unfold exec; now rewrite Hrun).
    destruct (IH (exec (onNodeClick d) w)) as (w1 & Hs & Hv1 & Hi1);
      [now rewrite Hv|].
    exists w1. split; [|split].
    + simpl. eapply steps_cons; [apply step_click | exact Hs].
    + now rewrite Hv1.
    + rewrite Hi1, Hi, Hv, <- app_assoc. reflexivity.
Qed.

Lemma take_middle {A} (pre : list A) a rest :
  firstn (List.length pre) (pre ++ a :: rest)
  ++ skipn (S (List.length pre)) (pre ++ a :: rest)
  = pre ++ rest.
Proof. induction pre as [|b pre IH]; simpl; [reflexivity | now f_equal]. Qed.

Lemma nth_error_middle {A} (pre : list A) a rest :
  nth_error (pre ++ a :: rest) (List.length pre) = Some a.
Proof. induction pre as [|b pre IH]; simpl; [reflexivity | exact IH]. Qed.

(** Once a delta has been merged, merging it again gives the same
    graph. *)
Lemma graph_after_again d w1 w :
  graphData (view w1) = graph_after d w ->
  graph_after d w1 = graph_after d w.
Proof.
  intros E. transitivity (graphData (view w1)); [|exact E].
  apply graph_after_known; rewrite E.
  - apply graph_after_wf.
  - intros l. apply graph_after_resolved.
  - intros n Hn. apply graph_after_addresses. right. now apply in_map.
  - intros l Hl. apply graph_after_ids. right. now apply in_map.
Qed.

Lemma settle_advances rq data pre rest w :
  page_accepted rq (ok_page data) = true ->
  renders (graph_after data w) = true ->
  inflight w = pre ++ rq :: rest ->
  exists w1,
    step w (EvSettle (List.length pre) (ok_page data)) w1
    /\ graphData (view w1) = graph_after data w
    /\ currentFileIndex (view w1) = currentFileIndex (view w) + 1
    /\ inflight w1 = pre ++ rest.
Proof.
  intros Hacc Hren Hin.
  assert (Hnth : nth_error (inflight w) (List.length pre) = Some rq)
    by (rewrite Hin; apply nth_error_middle).
  pose proof (step_settle w _ rq (ok_page data) Hnth) as Hstep.
  exists (exec (fetchGraphData_resume rq (ok_page data))
               (take_request (List.length pre) w)).
  split; [exact Hstep|]. split; [|split].
  - rewrite resume_view. unfold ok_page at 1. rewrite Hacc. reflexivity.
  - rewrite (step_cursor _ _ _ Hstep).
    unfold event_advances, event_accepted, ok_page. fold (ok_page data).
    now rewrite Hnth, Hacc, Hren.
  - rewrite resume_inflight. simpl. rewrite Hin. apply take_middle.
Qed.

Lemma settles_all_count rq data pre k : forall w,
  page_accepted rq (ok_page data) = true ->
  renders (graph_after data w) = true ->
  inflight w = pre ++ repeat rq k ->
  exists w',
    steps w (repeat (EvSettle (List.length pre) (ok_page data)) k) w'
    /\ currentFileIndex (view w') = currentFileIndex (view w) + Z.of_nat k
    /\ inflight w' = pre.
Proof.
  induction k as [|k IH]; intros w Hacc Hren Hin.
  - exists w. simpl in *. rewrite app_nil_r in Hin.
    repeat split; [apply steps_nil | lia | assumption].
  - simpl in Hin.
    destruct (settle_advances rq data pre _ w Hacc Hren Hin)
      as (w1 & Hstep & Hg & Hc & Hi).
    destruct (IH w1 Hacc) as (w' & Hs & Hc' & Hi').
    { now rewrite (graph_after_again data w1 w Hg). }
    { exact Hi. }
    exists w'. split; [|split].
    + simpl. eapply steps_cons; [exact Hstep | exact Hs].
    + rewrite Hc', Hc. lia.
    + exact Hi'.
Qed.

(** X8.  The guard of [onNodeClick] does not bound the cursor.  From
    any state whose cursor is at most 3, [k] clicks on a node made before
    any response arrives issue [k] fetches for the same page index.  When
    each of them is answered by a page that has a link leaving that
    node's address and whose merge leaves no link with an undefined
    endpoint, every one is accepted: the cursor ends [k] higher, however
    large [k] is. *)
Theorem rapid_clicks_outrun_cap (w : World) (d : GraphNode) (data : GraphData) (k : nat) :
  currentFileIndex (view w) <= 3 ->
  page_accepted (request_for (currentFileIndex (view w)) (address d)) (ok_page data)
  = true ->
  renders (graph_after data w) = true ->
  exists w1 w2,
    steps w (repeat (EvClick d) k) w1
    /\ inflight w1
       = inflight w ++ repeat (request_for (currentFileIndex (view w)) (address d)) k
    /\ steps w1 (repeat (EvSettle (List.length (inflight w)) (ok_page data)) k) w2
    /\ currentFileIndex (view w2) = currentFileIndex (view w) + Z.of_nat k
    /\ inflight w2 = inflight w.
Proof.
  intros Hc Hacc Hren.
  destruct (clicks_pile_up d k w Hc) as (w1 & Hs1 & Hv1 & Hi1).
  destruct (settles_all_count _ data (inflight w) k w1 Hacc) as (w2 & Hs2 & Hc2 & Hi2).
  { rewrite (graph_after_congr data w1 w); [exact Hren | now rewrite Hv1]. }
  { exact Hi1. }
  exists w1, w2. repeat split; auto. now rewrite Hc2, Hv1.
Qed.

Lemma rapid_clicks_outrun_cap_witness :
  exists w1 w2,
    steps world_1 (repeat (EvClick node_B) 3) w1
    /\ inflight w1 = inflight world_1 ++ repeat (request_for 2 "0xb") 3
    /\ steps w1 (repeat (EvSettle 0 (ok_page page_2)) 3) w2
    /\ currentFileIndex (view w2) = 5
    /\ inflight w2 = inflight world_1.
Proof.
  apply (rapid_clicks_outrun_cap world_1 node_B page_2 3).
  - simpl. lia.
  - reflexivity.
  - reflexivity.
Defined.

(** ** The trace of a settled fetch *)

(** X9.  Whatever the outcome of a fetch, the resumed [fetchGraphData]
    completes normally -- the exception of the link force included -- and
    leaves the other fetches in flight alone.  It writes nothing to the
    console exactly when the page is accepted and the link force takes
    the merged links; in every other case it writes exactly one line.
    Graph and cursor stay as they were unless the page passes the filter;
    a page that passes it is merged even when the link force then throws,
    and only the cursor is then left behind. *)
Theorem settled_fetch_trace (rq : Request) (result : FetchResult) (w : World) :
  let w' := exec (fetchGraphData_resume rq result) w in
  completion (fetchGraphData_resume rq result) w = Normal tt
  /\ inflight w' = inflight w
  /\ (console w' = console w <-> currentFileIndex (view w') = currentFileIndex (view w) + 1)
  /\ (console w' = console w \/ exists line, console w' = console w ++ [line])
  /\ (page_accepted rq result = false -> view w' = view w)
  /\ (forall data,
        result = ok_page data -> page_accepted rq result = true ->
        graphData (view w') = graph_after data w
        /\ currentFileIndex (view w')
           = currentFileIndex (view w) + (if renders (graph_after data w) then 1 else 0)
        /\ console w'
           = console w ++ (if renders (graph_after data w)
                           then [] else [ErrRequest NodeNotFound])).
Proof.
  cbv zeta. split; [apply resume_completes|]. split; [apply resume_inflight|].
  assert (Hne : forall line, console w ++ [line] = console w -> False).
  { intros line H. apply (f_equal (@List.length LogEntry)) in H.
    rewrite length_app in H. simpl in H. lia. }
  assert (Hfail : forall line,
            fetchGraphData_resume rq result w = (Normal tt, exec (console_write line) w) ->
            page_accepted rq result = false ->
            (console (exec (fetchGraphData_resume rq result) w) = console w
             <-> currentFileIndex (view (exec (fetchGraphData_resume rq result) w))
                 = currentFileIndex (view w) + 1)
            /\ (console (exec (fetchGraphData_resume rq result) w) = console w
                \/ exists l, console (exec (fetchGraphData_resume rq result) w)
                             = console w ++ [l])
            /\ (page_accepted rq result = false ->
                view (exec (fetchGraphData_resume rq result) w) = view w)
            /\ (forall data,
                  result = ok_page data -> page_accepted rq result = true ->
                  graphData (view (exec (fetchGraphData_resume rq result) w))
                  = graph_after data w
                  /\ currentFileIndex (view (exec (fetchGraphData_resume rq result) w))
                     = currentFileIndex (view w)
                       + (if renders (graph_after data w) then 1 else 0)
                  /\ console (exec (fetchGraphData_resume rq result) w)
                     = console w ++ (if renders (graph_after data w)
                                     then [] else [ErrRequest NodeNotFound]))).
  { intros line E Hno. unfold exec at 1 2 3 4 5. rewrite E. simpl.
    split; [split; [intros H; now apply Hne in H | lia]|].
    split; [right; now exists line|]. split; [reflexivity|].
    intros data _ Hyes. congruence. }
  destruct result as [|[[|] [data|]]].
  - apply (Hfail _ (resume_rejected rq w)). reflexivity.
  - destruct (page_accepted rq (Resolved {| ok := true; json := Some data |})) eqn:Hacc.
    + clear Hfail. pose proof (resume_page rq w data) as E.
      cbn [page_accepted] in Hacc. rewrite Hacc in E.
      unfold exec. rewrite E. clear E.
      destruct (renders (graph_after data w)) eqn:Hr;
        cbn [snd view console graphData currentFileIndex].
      * split; [split; [reflexivity | reflexivity]|].
        split; [now left|]. split; [discriminate|].
        intros data' Hd _. injection Hd as <-. rewrite Hr, app_nil_r. repeat split.
      * split; [split; [intros H; now apply Hne in H | lia]|].
        split; [right; eauto|]. split; [discriminate|].
        intros data' Hd _. injection Hd as <-. rewrite Hr, Z.add_0_r. repeat split.
    + pose proof (resume_page rq w data) as E.
      cbn [page_accepted] in Hacc. rewrite Hacc in E.
      exact (Hfail _ E eq_refl).
  - apply (Hfail _ (resume_bad_json rq w)). reflexivity.
  - apply (Hfail _ (resume_not_ok rq w (Some data))). reflexivity.
  - apply (Hfail _ (resume_not_ok rq w None)). reflexivity.
Qed.

Lemma settled_fetch_trace_witness :
  let w' := exec (fetchGraphData_resume (request_for 2 "0xb") (ok_page page_dangling))
                 (take_request 0 world_2) in
  graphData (view w') = graph_after page_dangling (take_request 0 world_2)
  /\ currentFileIndex (view w') = 2 + 0
  /\ console w' = console world_2 ++ [ErrRequest NodeNotFound].
Proof.
  cbv zeta.
  exact (proj2 (proj2 (proj2 (proj2 (proj2
           (settled_fetch_trace (request_for 2 "0xb") (ok_page page_dangling)
                                (take_request 0 world_2))))))
           page_dangling eq_refl eq_refl).
Defined.

(** ** More on labels and colors *)

Lemma length_string_append (s1 s2 : string) :
  String.length (s1 ++ s2)%string = (String.length s1 + String.length s2)%nat.
Proof. induction s1 as [|c s1 IH]; simpl; congruence. Qed.

Lemma length_string_of_list (cs : list ascii) :
  String.length (string_of_list_ascii cs) = List.length cs.
Proof. induction cs as [|c cs IH]; simpl; congruence. Qed.

Lemma length_first_chars n s :
  String.length (first_chars n s) = Nat.min n (String.length s).
Proof.
  unfold first_chars.
  now rewrite length_string_of_list, length_firstn, length_list_ascii.
Qed.

Lemma length_last_chars n s :
  String.length (last_chars n s) = Nat.min n (String.length s).
Proof.
  unfold last_chars.
  rewrite length_string_of_list, length_skipn, length_list_ascii. lia.
Qed.

Lemma chars_of_short n s :
  (String.length s <= n)%nat -> first_chars n s = s /\ last_chars n s = s.
Proof.
  intros H. unfold first_chars, last_chars. split.
  - rewrite firstn_all2 by (rewrite length_list_ascii; exact H).
    apply string_of_list_ascii_of_string.
  - replace (List.length (list_ascii_of_string s) - n)%nat with 0%nat
      by (rewrite length_list_ascii; lia).
    apply string_of_list_ascii_of_string.
Qed.

(** X10.  A label is never the empty string.  The label of a node
    without a usable display name has [min 6 n + 3 + min 4 n] characters
    for an address of [n] characters, so at most 13; an address of at most
    4 characters is shown in full on both sides of the dots. *)
Theorem getNodeLabel_shape (node : GraphNode) :
  getNodeLabel node <> ""
  /\ (Js.truthy (address_name node) = false ->
      let n := String.length (address node) in
      String.length (getNodeLabel node) = (Nat.min 6 n + 3 + Nat.min 4 n)%nat
      /\ (String.length (getNodeLabel node) <= 13)%nat
      /\ ((n <= 4)%nat ->
          getNodeLabel node = (address node ++ "..." ++ address node)%string)).
Proof.
  assert (Hlen : Js.truthy (address_name node) = false ->
                 String.length (getNodeLabel node)
                 = (Nat.min 6 (String.length (address node)) + 3
                    + Nat.min 4 (String.length (address node)))%nat).
  { intros H. rewrite (getNodeLabel_falsy node H). unfold short_address.
    rewrite !length_string_append, length_first_chars, length_last_chars.
    simpl. lia. }
  split.
  - destruct (Js.truthy (address_name node)) eqn:E.
    + unfold getNodeLabel. rewrite E.
      destruct (address_name node) as [[|c name]|]; simpl in *; discriminate.
    + intros H. apply (f_equal String.length) in H.
      rewrite (Hlen eq_refl) in H. simpl in H. lia.
  - intros H. cbv zeta. split; [now apply Hlen|]. split; [rewrite (Hlen H); lia|].
    intros Hn. rewrite (getNodeLabel_falsy node H). unfold short_address.
    destruct (chars_of_short 6 (address node)) as [-> _]; [lia|].
    destruct (chars_of_short 4 (address node)) as [_ ->]; [lia|].
    reflexivity.
Qed.

Lemma getNodeLabel_shape_witness :
  String.length (getNodeLabel node_A) = 13%nat
  /\ getNodeLabel {| address := "0xb"; address_name := Some ""; type := None |}
     = "0xb...0xb".
Proof.
  split.
  - exact (proj1 (proj2 (getNodeLabel_shape node_A) eq_refl)).
  - apply (proj2 (proj2 (proj2
             (getNodeLabel_shape
                {| address := "0xb"; address_name := Some ""; type := None |})
             eq_refl))).
    simpl. lia.
Defined.

(** X11.  The color tells the category: a node is orange only if its
    type is [cex], purple only if [stakingpool], green only if [token],
    blue only if [dao], red only if [gambling]; and no node gets a color
    outside these five and the gray [#666]. *)
Theorem getNodeColor_decodes (node : GraphNode) :
  In (getNodeColor node) ["orange"; "purple"; "green"; "blue"; "red"; "#666"]
  /\ (getNodeColor node = "orange" <-> type node = Some "cex")
  /\ (getNodeColor node = "purple" <-> type node = Some "stakingpool")
  /\ (getNodeColor node = "green" <-> type node = Some "token")
  /\ (getNodeColor node = "blue" <-> type node = Some "dao")
  /\ (getNodeColor node = "red" <-> type node = Some "gambling").
Proof.
  unfold getNodeColor. destruct (type node) as [t|]; simpl.
  - destruct (String.eqb_spec t "cex") as [->|H1];
      [simpl; repeat split; intros; try discriminate; tauto|].
    destruct (String.eqb_spec t "stakingpool") as [->|H2];
      [simpl; repeat split; intros; try discriminate; tauto|].
    destruct (String.eqb_spec t "token") as [->|H3];
      [simpl; repeat split; intros; try discriminate; tauto|].
    destruct (String.eqb_spec t "dao") as [->|H4];
      [simpl; repeat split; intros; try discriminate; tauto|].
    destruct (String.eqb_spec t "gambling") as [->|H5];
      [simpl; repeat split; intros; try discriminate; tauto|].
    repeat split; intros; try discriminate; try congruence; tauto.
  - repeat split; intros; try discriminate; tauto.
Qed.

(** ** Drag gestures *)

Lemma drag_run_app {num} simulation (hs1 hs2 : list (Drag.Handler num)) d :
  Drag.run simulation (hs1 ++ hs2) d
  = let (calls1, d1) := Drag.run simulation hs1 d in
    let (calls2, d2) := Drag.run simulation hs2 d1 in
    (calls1 ++ calls2, d2).
Proof.
  revert d. induction hs1 as [|h hs1 IH]; intros d; simpl.
  - now destruct (Drag.run simulation hs2 d).
  - destruct (Drag.handle simulation h d) as [c0 d0]. rewrite IH.
    destruct (Drag.run simulation hs1 d0) as [c1 d1].
    destruct (Drag.run simulation hs2 d1) as [c2 d2].
    now rewrite app_assoc.
Qed.

Lemma drag_moves_run {num} simulation (moves : list (Drag.DragEvent num)) d :
  exists d',
    Drag.run simulation (map Drag.Dragged moves) d = ([], d')
    /\ Drag.x d' = Drag.x d /\ Drag.y d' = Drag.y d
    /\ (moves = [] -> d' = d)
    /\ (forall e, last (map Some moves) None = Some e ->
                  Drag.fx d' = Drag.PinAt (Drag.event_x e)
                  /\ Drag.fy d' = Drag.PinAt (Drag.event_y e)).
Proof.
  revert d. induction moves as [|m moves IH]; intros d.
  - exists d. simpl. repeat split; intros; discriminate.
  - destruct (IH (snd (Drag.dragged m d))) as (d' & Hrun & Hx & Hy & Hnil & Hlast).
    exists d'. simpl in *. rewrite Hrun.
    split; [reflexivity|]. split; [assumption|]. split; [assumption|].
    split; [discriminate|].
    intros e He. destruct moves as [|m' moves].
    + simpl in He. injection He as <-. rewrite (Hnil eq_refl). split; reflexivity.
    + apply Hlast. exact He.
Qed.

(** X12.  A drag gesture -- [dragstarted], any number of [dragged], then
    [dragended] -- never writes the simulated position [x], [y] of the
    node and always leaves the node unpinned ([fx] and [fy] null),
    wherever it was dragged.  Until the end it is pinned: at its own
    position after the start, at the pointer of the latest move after
    that.  The simulation is called only by a gesture that starts or ends
    while no other is active, and only if the simulation exists:
    [alphaTarget(0.3).restart()] at the start, [alphaTarget(0)] at the
    end. *)
Theorem drag_gesture_releases {num : Type} (simulation : bool)
    (start : Drag.DragEvent num) (moves : list (Drag.DragEvent num))
    (stop : Drag.DragEvent num) (d : Drag.Node num) :
  Drag.run simulation (Drag.gesture start moves stop) d
  = ((if Drag.idle simulation start
      then [Drag.AlphaTarget Drag.Alpha_0_3; Drag.Restart] else [])
     ++ (if Drag.idle simulation stop then [Drag.AlphaTarget Drag.Alpha_0] else []),
     {| Drag.x := Drag.x d; Drag.y := Drag.y d;
        Drag.fx := Drag.PinNull; Drag.fy := Drag.PinNull |})
  /\ (let held := snd (Drag.run simulation
                         (Drag.Started start :: map Drag.Dragged moves) d) in
      Drag.x held = Drag.x d /\ Drag.y held = Drag.y d
      /\ (moves = [] ->
          Drag.fx held = Drag.pin_of (Drag.x d) /\ Drag.fy held = Drag.pin_of (Drag.y d))
      /\ (forall e, last (map Some moves) None = Some e ->
          Drag.fx held = Drag.PinAt (Drag.event_x e)
          /\ Drag.fy held = Drag.PinAt (Drag.event_y e))).
Proof.
  destruct (drag_moves_run simulation moves (snd (Drag.dragstarted simulation start d)))
    as (d' & Hrun & Hx & Hy & Hnil & Hlast).
  simpl in Hrun, Hx, Hy, Hnil. split.
  - unfold Drag.gesture. simpl. rewrite drag_run_app, Hrun. simpl.
    rewrite Hx, Hy, app_nil_r. reflexivity.
  - cbv zeta. simpl. rewrite Hrun. simpl.
    split; [assumption|]. split; [assumption|]. split; [|assumption].
    intros E. rewrite (Hnil E). split; reflexivity.
Qed.

Lemma drag_gesture_releases_witness :
  let d := {| Drag.x := Some 10; Drag.y := Some 20;
              Drag.fx := Drag.PinUndefined; Drag.fy := Drag.PinUndefined |} in
  let at_ (px py : Z) := {| Drag.active := 0; Drag.event_x := px; Drag.event_y := py |} in
  Drag.fx (snd (Drag.run true
                  (Drag.Started (at_ 10 20) :: map Drag.Dragged [at_ 11 21; at_ 15 25]) d))
  = Drag.PinAt 15.
Proof.
  cbv zeta.
  apply (proj2 (proj2 (proj2 (proj2
           (drag_gesture_releases true
              {| Drag.active := 0; Drag.event_x := 10; Drag.event_y := 20 |}
              [ {| Drag.active := 0; Drag.event_x := 11; Drag.event_y := 21 |};
                {| Drag.active := 0; Drag.event_x := 15; Drag.event_y := 25 |} ]
              {| Drag.active := 0; Drag.event_x := 15; Drag.event_y := 25 |}
              {| Drag.x := Some 10; Drag.y := Some 20;
                 Drag.fx := Drag.PinUndefined; Drag.fy := Drag.PinUndefined |}))))
         {| Drag.active := 0; Drag.event_x := 15; Drag.event_y := 25 |}).
  reflexivity.
Defined.
